(** * customize_template.py: case derivation, literal substitution and the
      interactive customization procedure

    A shallow embedding of [scripts/customize_template.py].

    A Python [str] is modelled as a list of characters with codes below
    256, the code standing for the code point.  The classes [[A-Z]],
    [[a-z]], [[0-9]], [.] and the blanks ([\s], [str.strip]) are those of
    Python on that whole range.  The case mappings ([str.lower],
    [str.capitalize]) are those of Python on the codes 0..127 and leave the
    other characters as they are, which Python does not: every statement
    below that depends on the case of a character outside [A-Z] and [a-z]
    is stated for ASCII text ([ascii_only]).

    A path is kept as its text, with [/] between components; this is what
    [pathlib] does as long as the component added on the right is relative
    and holds no [/] of its own, and the statements about destinations of
    moves and renamings say so in their hypotheses. *)

From Stdlib Require Import Ascii String.
From Stdlib Require Import List Bool Arith Lia.
Import ListNotations.
Local Open Scope list_scope.

(** ** Characters and strings *)

Definition str : Type := list ascii.

(** A Python string literal. *)
Definition py (s : string) : str := list_ascii_of_string s.

Definition code (c : ascii) : nat := nat_of_ascii c.

Definition between (lo hi : nat) (c : ascii) : bool :=
  (lo <=? code c) && (code c <=? hi).

(** The regex classes [[A-Z]], [[a-z]] and [[0-9]]. *)
Definition is_upper (c : ascii) : bool := between 65 90 c.
Definition is_lower (c : ascii) : bool := between 97 122 c.
Definition is_digit (c : ascii) : bool := between 48 57 c.

(** [\s] and [str.isspace]: TAB, LF, VT, FF, CR, the separators FS, GS, RS,
    US, the space, NEL (U+0085) and the no-break space (U+00A0). *)
Definition is_space (c : ascii) : bool :=
  between 9 13 c || between 28 32 c || (code c =? 133) || (code c =? 160).

(** [.] without DOTALL: anything but a line feed. *)
Definition is_dot (c : ascii) : bool := negb (code c =? 10).

(** The class [[-_\s]] of [to_pascal_case] and [to_package_name]. *)
Definition is_sep (c : ascii) : bool :=
  (c =? "-")%char || (c =? "_")%char || is_space c.

Definition lower_char (c : ascii) : ascii :=
  if is_upper c then ascii_of_nat (code c + 32) else c.

Definition upper_char (c : ascii) : ascii :=
  if is_lower c then ascii_of_nat (code c - 32) else c.

(** [s.lower()] *)
Definition str_lower (s : str) : str := map lower_char s.

(** [s.capitalize()]: the first character upper-cased, all the others
    lower-cased. *)
Definition str_capitalize (s : str) : str :=
  match s with
  | [] => []
  | c :: rest => upper_char c :: str_lower rest
  end.

(** [s.strip()] *)
Fixpoint lstrip (s : str) : str :=
  match s with
  | [] => []
  | c :: rest => if is_space c then lstrip rest else s
  end.

Definition str_strip (s : str) : str := rev (lstrip (rev (lstrip s))).

(** [''.join(words)] *)
Definition str_join_empty (words : list str) : str := concat words.

(** [s.startswith(p)] *)
Fixpoint starts_with (p s : str) : bool :=
  match p, s with
  | [], _ => true
  | _ :: _, [] => false
  | a :: p', b :: s' => (a =? b)%char && starts_with p' s'
  end.

(** [s.replace(old, new)] for a non-empty [old]: occurrences are found from
    the left and do not overlap.  [skip] counts the characters of the
    occurrence just replaced that are still to be passed over. *)
Fixpoint replace_scan (old new : str) (skip : nat) (s : str) : str :=
  match s with
  | [] => []
  | c :: rest =>
      match skip with
      | S k => replace_scan old new k rest
      | O =>
          if starts_with old s
          then new ++ replace_scan old new (length old - 1) rest
          else c :: replace_scan old new 0 rest
      end
  end.

(** [s.replace(old, new)].  With an empty [old] Python inserts [new] before
    every character and at the end. *)
Definition str_replace (old new : str) (s : str) : str :=
  match old with
  | [] => new ++ flat_map (fun c => c :: new) s
  | _ :: _ => replace_scan old new 0 s
  end.

(** ** Regular expressions of the script *)

(** [re.split(r'[-_\s]+', s)].  [prev_sep] tells that the preceding
    character belongs to the separator run being skipped. *)
Fixpoint re_split_from (prev_sep : bool) (s : str) : list str :=
  match s with
  | [] => [[]]
  | c :: rest =>
      if is_sep c then
        if prev_sep then re_split_from true rest
        else [] :: re_split_from true rest
      else
        match re_split_from false rest with
        | w :: ws => (c :: w) :: ws
        | [] => [[c]]
        end
  end.

Definition re_split_seps (s : str) : list str := re_split_from false s.

(** [re.sub(r'[-_\s]+', '', s)] *)
Definition re_remove_seps (s : str) : str :=
  filter (fun c => negb (is_sep c)) s.

(** [re.sub('(.)([A-Z][a-z]+)', r'\1-\2', s)]: leftmost matches, each one
    starting where the previous one ended at the earliest.  [in_run] tells
    that the greedy [[a-z]+] of the current match is still being read. *)
Fixpoint re_sub_title (in_run : bool) (s : str) : str :=
  match s with
  | [] => []
  | c :: rest =>
      if in_run && is_lower c then c :: re_sub_title true rest
      else
        match rest with
        | u :: ((l :: _) as rest') =>
            if is_dot c && is_upper u && is_lower l
            then c :: "-"%char :: u :: re_sub_title true rest'
            else c :: re_sub_title false rest
        | _ => c :: re_sub_title false rest
        end
  end.

(** [re.sub('([a-z0-9])([A-Z])', r'\1-\2', s)] *)
Fixpoint re_sub_hump (s : str) : str :=
  match s with
  | [] => []
  | c :: rest =>
      match rest with
      | u :: rest' =>
          if (is_lower c || is_digit c) && is_upper u
          then c :: "-"%char :: u :: re_sub_hump rest'
          else c :: re_sub_hump rest
      | [] => [c]
      end
  end.

(** ** The case-derivation functions *)

Definition to_pascal_case (name : str) : str :=
  let words := re_split_seps name in
  str_join_empty (map str_capitalize words).

Definition to_camel_case (name : str) : str :=
  let pascal := to_pascal_case name in
  match pascal with
  | [] => []
  | c :: rest => lower_char c :: rest
  end.

Definition to_kebab_case (name : str) : str :=
  let s1 := re_sub_title false name in
  let s2 := re_sub_hump s1 in
  str_replace (py " ") (py "-") (str_replace (py "_") (py "-") (str_lower s2)).

Definition to_package_name (name : str) : str :=
  str_lower (re_remove_seps name).


(** ** Content substitution on one text *)

(** The dict [replacements], in insertion order. *)
Definition replacements : Type := list (str * str).

(** [changed = text; for old, new in replacements.items():
     changed = changed.replace(old, new)] *)
Definition apply_replacements (table : replacements) (text : str) : str :=
  fold_left (fun changed entry => str_replace (fst entry) (snd entry) changed)
            table text.

(** ** Paths *)

(** A [pathlib.Path] is kept as its text; components are relative and free
    of ["."] and [".."]. *)
Definition path : Type := str.

Definition str_eqb (a b : str) : bool :=
  if list_eq_dec ascii_dec a b then true else false.

(** [s.split(sep)] for a one-character separator. *)
Fixpoint str_split_char (sep : ascii) (s : str) : list str :=
  match s with
  | [] => [[]]
  | c :: rest =>
      if (c =? sep)%char then [] :: str_split_char sep rest
      else
        match str_split_char sep rest with
        | w :: ws => (c :: w) :: ws
        | [] => [[c]]
        end
  end.

(** [sep.join(parts)] *)
Fixpoint str_join (sep : str) (parts : list str) : str :=
  match parts with
  | [] => []
  | [w] => w
  | w :: ws => w ++ sep ++ str_join sep ws
  end.

Definition nonempty (s : str) : bool :=
  match s with [] => false | _ :: _ => true end.

(** [Path] built from its components: empty components vanish; the empty text stands for the
    path ["."]. *)
Definition path_of_parts (parts : list str) : path :=
  str_join (py "/") (filter nonempty parts).

(** [p / q] *)
Definition joinpath (p q : path) : path :=
  match q with
  | [] => p
  | _ :: _ => p ++ py "/" ++ q
  end.

Declare Scope path_scope.
Delimit Scope path_scope with path.
Infix "//" := joinpath (at level 40, left associativity) : path_scope.
Local Open Scope path_scope.

(** [p.name] and [p.parent] *)
Definition path_name (p : path) : str := last (str_split_char "/" p) [].
Definition path_parent (p : path) : path :=
  str_join (py "/") (removelast (str_split_char "/" p)).

(** [str(p)] *)
Definition path_str (p : path) : str :=
  match p with [] => py "." | _ :: _ => p end.

(** ** Programs over console and file-system events *)

Inductive exn : Type :=
| OSError
| UnicodeDecodeError
| EOFError
| SystemExit (msg : str).

Inductive result (X : Type) : Type :=
| Ok (x : X)
| Err (e : exn).
Arguments Ok {X} x.
Arguments Err {X} e.

(** What the script asks of its environment; the index is the type of the
    answer, a [result] where the call can raise.  Printing, existence tests
    and globbing are taken not to raise, and a glob hands over all its
    matches at once. *)
Inductive event : Type -> Type :=
| EvInput (prompt : str) : event (result str)
| EvPrint (line : str) : event unit
| EvExists (p : path) : event bool
| EvMkdirParents (p : path) : event (result unit)
| EvMove (src dst : path) : event (result unit)
| EvRmdir (p : path) : event (result unit)
| EvGlob (dir : path) (pattern : str) : event (list path)
| EvRglob (dir : path) (pattern : str) : event (list path)
| EvRename (src dst : path) : event (result unit)
| EvReadText (p : path) : event (result str)
| EvWriteText (p : path) (text : str) : event (result unit).

Inductive prog (R : Type) : Type :=
| Ret (r : R)
| Raise (e : exn)
| Vis {X : Type} (ev : event X) (k : X -> prog R).
Arguments Ret {R} r.
Arguments Raise {R} e.
Arguments Vis {R X} ev k.

Fixpoint bind {A B : Type} (p : prog A) (f : A -> prog B) : prog B :=
  match p with
  | Ret a => f a
  | Raise e => Raise e
  | Vis ev k => Vis ev (fun x => bind (k x) f)
  end.

Notation "x <- p ;; q" := (bind p (fun x => q))
  (at level 61, p at next level, right associativity).
Notation "p ;; q" := (bind p (fun _ => q))
  (at level 61, right associativity).

(** An event that cannot raise. *)
Definition ask {X : Type} (ev : event X) : prog X := Vis ev Ret.

(** An event whose failure is raised as a Python exception. *)
Definition call {X : Type} (ev : event (result X)) : prog X :=
  Vis ev (fun r => match r with Ok x => Ret x | Err e => Raise e end).

(** [try: p except <the exceptions h accepts>: ...] *)
Fixpoint try_except {R : Type} (p : prog R) (h : exn -> option (prog R))
  : prog R :=
  match p with
  | Ret r => Ret r
  | Raise e => match h e with Some q => q | None => Raise e end
  | Vis ev k => Vis ev (fun x => try_except (k x) h)
  end.

(** [for a in l: body(a)] *)
Fixpoint for_each {A : Type} (l : list A) (body : A -> prog unit)
  : prog unit :=
  match l with
  | [] => Ret tt
  | a :: l' => body a ;; for_each l' body
  end.

Definition print (line : str) : prog unit := ask (EvPrint line).

(** ** The script's procedures *)

Definition prompt (msg default : str) : prog str :=
  val <- call (EvInput (msg ++ py " [" ++ default ++ py "]: ")) ;;
  let val := str_strip val in
  Ret (match val with [] => default | _ :: _ => val end).

(** The body of the loop of [replace_in_files]; [Ret tt] is [continue]. *)
Definition replace_in_file (table : replacements) (file : path) : prog unit :=
  found <- ask (EvExists file) ;;
  if negb found then Ret tt
  else
    read <- try_except (text <- call (EvReadText file) ;; Ret (Some text))
              (fun e => match e with
                        | UnicodeDecodeError => Some (Ret None)
                        | _ => None
                        end) ;;
    match read with
    | None => Ret tt
    | Some text =>
        let changed := apply_replacements table text in
        if negb (str_eqb changed text) then
          call (EvWriteText file changed) ;;
          print (py "  Updated: " ++ path_str file)
        else Ret tt
    end.

Definition replace_in_files (files : list path) (table : replacements)
  : prog unit :=
  for_each files (replace_in_file table).

(** Which [return] of [main] was reached: the one after ["Aborted."] or the
    end of the function. *)
Inductive finished : Type :=
| Aborted
| Customized.

(** The names and coordinates collected before the confirmation prompt. *)
Record settings : Type := {
  pascal_name : str;
  camel_name : str;
  package_name : str;
  group_id : str;
  artifact_id : str;
  github_org : str
}.

Definition banner : str := repeat "="%char 60.

Definition old_package : str := py "com.kingsrook.qbits.todo".
Definition old_package_path : path := py "com/kingsrook/qbits/todo".
Definition src_roots : list str := [py "src/main/java"; py "src/test/java"].

Definition new_package (cfg : settings) : str :=
  group_id cfg ++ py "." ++ package_name cfg.

Definition new_package_path (cfg : settings) : path :=
  path_of_parts (str_split_char "." (new_package cfg)).

(** The dict literal [replacements] of [main]. *)
Definition main_replacements (cfg : settings) : replacements :=
  [ (py "package " ++ old_package, py "package " ++ new_package cfg);
    (py "import " ++ old_package ++ py ".",
     py "import " ++ new_package cfg ++ py ".");
    (old_package, new_package cfg);
    (py "TodoQBitConfig", pascal_name cfg ++ py "QBitConfig");
    (py "TodoQBitProducer", pascal_name cfg ++ py "QBitProducer");
    (py "todoQBitConfig", camel_name cfg ++ py "QBitConfig");
    (py "Todo QBit", pascal_name cfg ++ py " QBit");
    (py "Todo", pascal_name cfg);
    (py "<artifactId>qbit-todo</artifactId>",
     py "<artifactId>" ++ artifact_id cfg ++ py "</artifactId>");
    (py "<name>QBit Todo</name>",
     py "<name>QBit " ++ pascal_name cfg ++ py "</name>");
    (py "qbit-todo", artifact_id cfg);
    (py "qrun-io/qbit-todo", github_org cfg ++ py "/" ++ artifact_id cfg);
    (py "github.com/qrun-io/qbit-todo",
     py "github.com/" ++ github_org cfg ++ py "/" ++ artifact_id cfg) ].

(** Lines 126-142: move the Java sources to the new package path. *)
Definition move_sources (repo : path) (cfg : settings) : prog unit :=
  print [] ;;
  print (py "Moving source files...") ;;
  for_each src_roots (fun src_root =>
    let src_dir := repo // src_root // old_package_path in
    found <- ask (EvExists src_dir) ;;
    if found then
      let dst_dir := repo // src_root // new_package_path cfg in
      call (EvMkdirParents (path_parent dst_dir)) ;;
      call (EvMove src_dir dst_dir) ;;
      print (py "  Moved: " ++ src_root ++ py "/" ++ path_str old_package_path
             ++ py " -> " ++ src_root ++ py "/"
             ++ path_str (new_package_path cfg)) ;;
      try_except
        (call (EvRmdir (repo // src_root // py "com/kingsrook/qbits")) ;;
         call (EvRmdir (repo // src_root // py "com/kingsrook")) ;;
         call (EvRmdir (repo // src_root // py "com")))
        (fun e => match e with OSError => Some (Ret tt) | _ => None end)
    else Ret tt).

(** Lines 144-154: rename the [Todo*.java] files. *)
Definition rename_java_files (repo : path) (cfg : settings) : prog unit :=
  print [] ;;
  print (py "Renaming Java files...") ;;
  for_each src_roots (fun src_root =>
    let new_dir := repo // src_root // new_package_path cfg in
    found <- ask (EvExists new_dir) ;;
    if found then
      java_files <- ask (EvGlob new_dir (py "Todo*.java")) ;;
      for_each java_files (fun java_file =>
        let new_name :=
          str_replace (py "Todo") (pascal_name cfg) (path_name java_file) in
        let new_path := path_parent java_file // new_name in
        call (EvRename java_file new_path) ;;
        print (py "  Renamed: " ++ path_name java_file ++ py " -> "
               ++ new_name))
    else Ret tt).

(** Lines 156-189: collect the files and substitute in their contents. *)
Definition update_contents (repo : path) (cfg : settings) : prog unit :=
  java_files <- ask (EvRglob (repo // py "src") (py "*.java")) ;;
  let xml_files := [repo // py "pom.xml"] in
  md_root <- ask (EvGlob repo (py "*.md")) ;;
  md_docs <- ask (EvRglob (repo // py "docs") (py "*.md")) ;;
  let md_files := md_root ++ md_docs in
  yml <- ask (EvRglob repo (py "*.yml")) ;;
  yaml <- ask (EvRglob repo (py "*.yaml")) ;;
  let yml_files := yml ++ yaml in
  let all_files := java_files ++ xml_files ++ md_files ++ yml_files in
  print [] ;;
  print (py "Updating file contents...") ;;
  replace_in_files all_files (main_replacements cfg).

(** Lines 191-205: the closing summary. *)
Definition report (cfg : settings) : prog unit :=
  print [] ;;
  print banner ;;
  print (py "Customization complete!") ;;
  print banner ;;
  print [] ;;
  print (py "  Package:     " ++ new_package cfg) ;;
  print (py "  groupId:     " ++ group_id cfg) ;;
  print (py "  artifactId:  " ++ artifact_id cfg) ;;
  print (py "  GitHub:      " ++ github_org cfg ++ py "/" ++ artifact_id cfg) ;;
  print [] ;;
  print (py "Next steps:") ;;
  print (py "  1. Review the changes: git diff") ;;
  print (py "  2. Build the project:  mvn clean package") ;;
  print (py "  3. Commit your changes") ;;
  print [].

(** Lines 120-205: everything [main] does once the user has confirmed. *)
Definition customize (repo : path) (cfg : settings) : prog finished :=
  move_sources repo cfg ;;
  rename_java_files repo cfg ;;
  update_contents repo cfg ;;
  report cfg ;;
  Ret Customized.

(** [main()], with [repo] for [Path(__file__).resolve().parents[1]]. *)
Definition main (repo : path) : prog finished :=
  let pom := repo // py "pom.xml" in
  pom_exists <- ask (EvExists pom) ;;
  if negb pom_exists then
    Raise (SystemExit (py "Run from the template repo; pom.xml not found."))
  else
    print banner ;;
    print (py "QBit Template Customization") ;;
    print banner ;;
    print [] ;;
    print (py "This script will rename the template to match your QBit name.") ;;
    print (py "Enter your QBit name in any format (e.g., 'my-feature', 'MyFeature').") ;;
    print [] ;;
    qbit_name <- prompt (py "QBit name") (py "my-qbit") ;;
    let kebab_name := to_kebab_case qbit_name in
    let pascal := to_pascal_case qbit_name in
    let camel := to_camel_case qbit_name in
    let package := to_package_name qbit_name in
    print [] ;;
    print (py "Derived names:") ;;
    print (py "  kebab-case:  " ++ kebab_name) ;;
    print (py "  PascalCase:  " ++ pascal) ;;
    print (py "  camelCase:   " ++ camel) ;;
    print (py "  package:     " ++ package) ;;
    print [] ;;
    group <- prompt (py "Maven groupId") (py "com.kingsrook.qbits") ;;
    artifact <- prompt (py "Maven artifactId") (py "qbit-" ++ kebab_name) ;;
    org <- prompt (py "GitHub organization") (py "qrun-io") ;;
    print [] ;;
    print (py "Configuration:") ;;
    print (py "  groupId:     " ++ group) ;;
    print (py "  artifactId:  " ++ artifact) ;;
    print (py "  GitHub:      " ++ org ++ py "/" ++ artifact) ;;
    print [] ;;
    answer <- call (EvInput (py "Proceed with customization? [Y/n]: ")) ;;
    let confirm := str_lower (str_strip answer) in
    if str_eqb confirm (py "n") then
      print (py "Aborted.") ;;
      Ret Aborted
    else
      customize repo
        {| pascal_name := pascal; camel_name := camel;
           package_name := package; group_id := group;
           artifact_id := artifact; github_org := org |}.

(** ** Running a program *)

(** One answered event. *)
Inductive entry : Type :=
| Entry {X : Type} (ev : event X) (answer : X).

(** The environment: it answers each event and moves to its next state. *)
Definition handler (S : Type) : Type := forall X : Type, event X -> S -> X * S.

Record run (S R : Type) : Type := {
  outcome : result R;
  final : S;
  trace : list entry
}.
Arguments outcome {S R} r.
Arguments final {S R} r.
Arguments trace {S R} r.

Fixpoint exec {S R : Type} (h : handler S) (p : prog R) (s : S) : run S R :=
  match p with
  | Ret r => {| outcome := Ok r; final := s; trace := [] |}
  | Raise e => {| outcome := Err e; final := s; trace := [] |}
  | Vis ev k =>
      let (x, s1) := h _ ev s in
      let r := exec h (k x) s1 in
      {| outcome := outcome r; final := final r;
         trace := Entry ev x :: trace r |}
  end.

(** The events that change the file system. *)
Definition is_mutation (e : entry) : bool :=
  match e with
  | Entry (EvMkdirParents _) _ => true
  | Entry (EvMove _ _) _ => true
  | Entry (EvRmdir _) _ => true
  | Entry (EvRename _ _) _ => true
  | Entry (EvWriteText _ _) _ => true
  | Entry _ _ => false
  end.

Definition mutations (tr : list entry) : list entry := filter is_mutation tr.

(** The lines printed, the texts read and the texts written along a trace. *)
Definition printed (tr : list entry) : list str :=
  flat_map (fun e => match e with
                     | Entry (EvPrint line) _ => [line]
                     | Entry _ _ => []
                     end) tr.

Definition reads (tr : list entry) : list (path * str) :=
  flat_map (fun e => match e with
                     | Entry (EvReadText p) (Ok text) => [(p, text)]
                     | Entry _ _ => []
                     end) tr.

Definition writes (tr : list entry) : list (path * str) :=
  flat_map (fun e => match e with
                     | Entry (EvWriteText p text) _ => [(p, text)]
                     | Entry _ _ => []
                     end) tr.

(** The console: [input()] takes the next line of the standard input and
    raises [EOFError] when there is none; every other event goes to the
    file-system handler [h]. *)
Definition console {F : Type} (h : handler F) : handler (list str * F) :=
  fun X ev =>
    match ev in event T return list str * F -> T * (list str * F) with
    | EvInput _ => fun s =>
        match fst s with
        | [] => (Err EOFError, s)
        | line :: more => (Ok line, (more, snd s))
        end
    | EvPrint _ => fun s => (tt, s)
    | ev' => fun s => let (x, f) := h _ ev' (snd s) in (x, (fst s, f))
    end.

(** ** An in-memory file system

    A small environment on which the procedure can be run: a table from
    paths to nodes.  It serves the worked examples; the properties of the
    script below are stated for every handler. *)

Inductive node : Type :=
| Directory
| TextFile (text : str)
| BinaryFile.

Definition memfs : Type := list (path * node).

Definition lookup (p : path) (fs : memfs) : option node :=
  match find (fun e => str_eqb (fst e) p) fs with
  | Some e => Some (snd e)
  | None => None
  end.

Definition present (p : path) (fs : memfs) : bool :=
  match lookup p fs with Some _ => true | None => false end.

Definition is_under (dir p : path) : bool := starts_with (dir ++ py "/") p.

Definition is_child (dir p : path) : bool :=
  is_under dir p && str_eqb (path_parent p) dir.

Definition ends_with (suffix s : str) : bool :=
  starts_with (rev suffix) (rev s).

(** Patterns with at most one star. *)
Definition glob_match (pattern name : str) : bool :=
  match str_split_char "*" pattern with
  | [lit] => str_eqb lit name
  | [pre; suf] =>
      starts_with pre name && ends_with suf name
      && (length pre + length suf <=? length name)
  | _ => false
  end.

Definition remove_path (p : path) (fs : memfs) : memfs :=
  filter (fun e => negb (str_eqb (fst e) p)) fs.

Definition rebase (src dst p : path) : path :=
  if str_eqb p src then dst
  else if is_under src p then dst ++ skipn (length src) p
  else p.

Definition move_tree (src dst : path) (fs : memfs) : memfs :=
  map (fun e => (rebase src dst (fst e), snd e)) fs.

Fixpoint prefixes (l : list str) : list (list str) :=
  match l with
  | [] => []
  | a :: l' => [a] :: map (cons a) (prefixes l')
  end.

Definition add_dir (fs : memfs) (p : path) : memfs :=
  if nonempty p && negb (present p fs) then fs ++ [(p, Directory)] else fs.

Definition make_dirs (p : path) (fs : memfs) : memfs :=
  fold_left add_dir
    (map (str_join (py "/")) (prefixes (str_split_char "/" p))) fs.

Definition memfs_handler : handler memfs :=
  fun X ev =>
    match ev in event T return memfs -> T * memfs with
    | EvInput _ => fun fs => (Err EOFError, fs)
    | EvPrint _ => fun fs => (tt, fs)
    | EvExists p => fun fs => (present p fs, fs)
    | EvMkdirParents p => fun fs => (Ok tt, make_dirs p fs)
    | EvMove src dst => fun fs =>
        let target :=
          match lookup dst fs with
          | Some Directory => dst // path_name src
          | _ => dst
          end in
        if str_eqb src dst then
          if present src fs then (Ok tt, fs) else (Err OSError, fs)
        else if present src fs && negb (present target fs)
                && negb (is_under src target)
        then (Ok tt, move_tree src target fs)
        else (Err OSError, fs)
    | EvRmdir p => fun fs =>
        match lookup p fs with
        | Some Directory =>
            if existsb (fun e => is_under p (fst e)) fs then (Err OSError, fs)
            else (Ok tt, remove_path p fs)
        | _ => (Err OSError, fs)
        end
    | EvGlob dir pattern => fun fs =>
        (map fst (filter (fun e => is_child dir (fst e)
                                   && glob_match pattern (path_name (fst e)))
                         fs), fs)
    | EvRglob dir pattern => fun fs =>
        (map fst (filter (fun e => is_under dir (fst e)
                                   && glob_match pattern (path_name (fst e)))
                         fs), fs)
    | EvRename src dst => fun fs =>
        if present src fs
        then (Ok tt, move_tree src dst (remove_path dst fs))
        else (Err OSError, fs)
    | EvReadText p => fun fs =>
        match lookup p fs with
        | Some (TextFile text) => (Ok text, fs)
        | Some BinaryFile => (Err UnicodeDecodeError, fs)
        | _ => (Err OSError, fs)
        end
    | EvWriteText p text => fun fs =>
        match lookup p fs with
        | Some Directory => (Err OSError, fs)
        | Some _ =>
            (Ok tt, map (fun e => if str_eqb (fst e) p
                                  then (p, TextFile text) else e) fs)
        | None => (Ok tt, fs ++ [(p, TextFile text)])
        end
    end.

(** A freshly cloned template, reduced to a few files. *)
Definition template_repo : memfs :=
  [ (py "repo", Directory);
    (py "repo/pom.xml",
     TextFile (py "<artifactId>qbit-todo</artifactId><name>QBit Todo</name>"));
    (py "repo/README.md", TextFile (py "# qbit-todo: the Todo QBit"));
    (py "repo/LICENSE.md", TextFile (py "Apache License 2.0"));
    (py "repo/logo.yml", BinaryFile);
    (py "repo/src", Directory);
    (py "repo/src/main", Directory);
    (py "repo/src/main/java", Directory);
    (py "repo/src/main/java/com", Directory);
    (py "repo/src/main/java/com/kingsrook", Directory);
    (py "repo/src/main/java/com/kingsrook/qbits", Directory);
    (py "repo/src/main/java/com/kingsrook/qbits/todo", Directory);
    (py "repo/src/main/java/com/kingsrook/qbits/todo/TodoQBitConfig.java",
     TextFile (py "package com.kingsrook.qbits.todo; class TodoQBitConfig {}")) ].

(** The answers of the end-to-end scenario of the specification. *)
Definition scenario_stdin : list str :=
  [py "my-feature"; py "com.acme"; py ""; py ""; py ""].

Definition scenario : run (list str * memfs) finished :=
  exec (console memfs_handler) (main (py "repo")) (scenario_stdin, template_repo).

(** The claims of the specification, as they are worded, at one input. *)

(** "camelCase(x)[0] is a lowercase letter and equals PascalCase(x)[0]
    lowered, the remainders being equal." *)
Definition camel_head_lowercase_at (x : str) : Prop :=
  exists c rest p prest,
    to_camel_case x = c :: rest /\ to_pascal_case x = p :: prest /\
    is_lower c = true /\ c = lower_char p /\ rest = prest.

(** "PascalCase then kebab-case yields the original kebab form." *)
Definition round_trip_at (name : str) : Prop :=
  to_kebab_case (to_pascal_case name) = name.


(** [old in s] *)
Fixpoint occurs (old s : str) : bool :=
  starts_with old s ||
  match s with
  | [] => false
  | _ :: rest => occurs old rest
  end.

(** "No search string is a substring of its own replacement." *)
Definition no_self_match (table : replacements) : bool :=
  forallb (fun entry => negb (occurs (fst entry) (snd entry))) table.

(** Kebab-case names: words joined by single hyphens, each word a lowercase
    letter followed by lowercase letters and digits. *)
Definition is_word_char (c : ascii) : bool := is_lower c || is_digit c.

Definition kebab_word (w : str) : bool :=
  match w with
  | [] => false
  | c :: rest => is_lower c && forallb is_word_char rest
  end.

Definition lowercase_word (w : str) : bool :=
  nonempty w && forallb is_lower w.

Definition kebab_join (words : list str) : str := str_join (py "-") words.

Definition second_is_lower (w : str) : bool :=
  match w with
  | _ :: l :: _ => is_lower l
  | _ => false
  end.

(** No one-letter word is followed by a word whose second character is
    missing or a digit. *)
Fixpoint boundaries_visible (words : list str) : bool :=
  match words with
  | w1 :: ((w2 :: _) as rest) =>
      ((1 <? length w1) || second_is_lower w2) && boundaries_visible rest
  | _ => true
  end.

(** The per-character effect of
    [.lower().replace('_', '-').replace(' ', '-')]. *)
Definition kebab_char (c : ascii) : ascii :=
  let c1 := lower_char c in
  let c2 := if (c1 =? "_")%char then "-"%char else c1 in
  if (c2 =? " ")%char then "-"%char else c2.

(** ** Notions used in the statements and proofs *)

Definition tab : ascii := ascii_of_nat 9.

Definition no_upper (s : str) : Prop := Forall (fun c => is_upper c = false) s.

(** No search string of the table occurs in the text. *)
Definition settled (table : replacements) (text : str) : bool :=
  forallb (fun entry => negb (occurs (fst entry) text)) table.

Definition my_feature_settings : settings :=
  {| pascal_name := py "MyFeature"; camel_name := py "myFeature";
     package_name := py "myfeature"; group_id := py "com.acme";
     artifact_id := py "qbit-my-feature"; github_org := py "qrun-io" |}.

(** Along a trace, the texts written are the changed texts of the files
    read, each one different from the text that was read. *)
Definition writes_follow_changes (table : replacements) (tr : list entry) : Prop :=
  forall (file : path) (changed : str),
    In (file, changed) (writes tr) <->
    exists text,
      In (file, text) (reads tr) /\
      changed = apply_replacements table text /\ changed <> text.

(** The scenario of the specification up to the confirmation prompt. *)
Definition confirm_run (answer : str) : run (list str * memfs) finished :=
  exec (console memfs_handler) (main (py "repo"))
    ([py "my-feature"; py "com.acme"; py ""; py ""; answer], template_repo).

(** "The procedure aborts exactly when the input is the exact string n." *)
Definition aborts_only_on_exact_n (answer : str) : Prop :=
  outcome (confirm_run answer) = Ok Aborted <-> answer = py "n".

(** [re_sub_hump] seen locally: a hyphen goes in front of every upper-case
    letter that follows a lower-case letter or a digit. *)
Fixpoint hump_local (after_word_char : bool) (s : str) : str :=
  match s with
  | [] => []
  | c :: rest =>
      (if after_word_char && is_upper c then ["-"%char] else [])
      ++ c :: hump_local (is_word_char c) rest
  end.

Definition hyphen_if (b : bool) : str := if b then ["-"%char] else [].

Definition word_chars (r : str) : Prop := forallb is_word_char r = true.

Definition caps (words : list str) : str := concat (map str_capitalize words).

Definition tails (words : list str) : str :=
  concat (map (cons "-"%char) words).

(** The kebab form of what follows a position inside a word ([inside]) and
    of what follows a word boundary ([at_word]); [p] tells whether the
    character before the position is a lower-case letter or a digit. *)
Definition inside (words : list str) : Prop :=
  forall b p r,
    word_chars r ->
    (r = [] -> words <> [] -> p = true) ->
    map kebab_char (hump_local p (re_sub_title b (r ++ caps words))) =
    r ++ tails words.

Definition at_word (words : list str) : Prop :=
  forall b p c r,
    is_lower c = true -> word_chars r ->
    boundaries_visible ((c :: r) :: words) = true ->
    map kebab_char
      (hump_local p (re_sub_title b (upper_char c :: r ++ caps words))) =
    hyphen_if p ++ c :: r ++ tails words.

(** ** Notions used in the further properties *)

(** Text of ASCII characters only. *)
Definition ascii_only (s : str) : Prop := Forall (fun c => code c < 128) s.

(** No [/] in the text. *)
Definition no_slash (s : str) : Prop := Forall (fun c => c <> "/"%char) s.

(** A path component: not empty, without [/], and neither [.] nor [..]. *)
Definition component (s : str) : bool :=
  nonempty s && forallb (fun c => negb (c =? "/")%char) s &&
  negb (str_eqb s (py ".")) && negb (str_eqb s (py "..")).

(** The text of a path as [pathlib] prints it, the root and the current
    directory apart: components joined by single [/], after at most one
    leading [/]. *)
Definition path_text (p : path) : bool :=
  match str_split_char "/" p with
  | [] => false
  | [first] => component first
  | first :: rest =>
      (component first || negb (nonempty first)) && forallb component rest
  end.

(** The new name of a file of [main]'s renaming loop. *)
Definition renamed (cfg : settings) (java_file : path) : str :=
  str_replace (py "Todo") (pascal_name cfg) (path_name java_file).

(** The template repository once its sources are moved. *)
Definition moved_repo : memfs :=
  final (exec memfs_handler (move_sources (py "repo") my_feature_settings)
           template_repo).

(** No character of the class [[-_\s]]. *)
Definition no_sep (s : str) : Prop := Forall (fun c => is_sep c = false) s.

(** Only blanks, or nothing at all. *)
Definition blank (s : str) : bool := forallb is_space s.

(** No upper-case letter, underscore or space. *)
Definition kebab_clean (s : str) : Prop :=
  Forall (fun c => is_upper c = false /\ c <> "_"%char /\ c <> " "%char) s.

(** The first and the last character are not blanks. *)
Definition trimmed (s : str) : Prop :=
  (forall c rest, s = c :: rest -> is_space c = false) /\
  (forall c front, s = front ++ [c] -> is_space c = false).

(** What a trace holds: the prompts answered with their answers, the paths
    found to exist, the directories made, the moves asked for and those
    done, the directories whose removal was asked for, the renamings asked
    for and the paths handed over by the globs. *)
Definition answers (tr : list entry) : list (str * str) :=
  flat_map (fun e => match e with
                     | Entry (EvInput p) (Ok line) => [(p, line)]
                     | Entry _ _ => []
                     end) tr.

Definition found (tr : list entry) : list path :=
  flat_map (fun e => match e with
                     | Entry (EvExists p) true => [p]
                     | Entry _ _ => []
                     end) tr.

Definition made_dirs (tr : list entry) : list path :=
  flat_map (fun e => match e with
                     | Entry (EvMkdirParents p) (Ok _) => [p]
                     | Entry _ _ => []
                     end) tr.

Definition moves (tr : list entry) : list (path * path) :=
  flat_map (fun e => match e with
                     | Entry (EvMove src dst) _ => [(src, dst)]
                     | Entry _ _ => []
                     end) tr.

Definition moves_done (tr : list entry) : list (path * path) :=
  flat_map (fun e => match e with
                     | Entry (EvMove src dst) (Ok _) => [(src, dst)]
                     | Entry _ _ => []
                     end) tr.

Definition rmdirs (tr : list entry) : list path :=
  flat_map (fun e => match e with
                     | Entry (EvRmdir p) _ => [p]
                     | Entry _ _ => []
                     end) tr.

Definition renames (tr : list entry) : list (path * path) :=
  flat_map (fun e => match e with
                     | Entry (EvRename src dst) _ => [(src, dst)]
                     | Entry _ _ => []
                     end) tr.

Definition globbed (tr : list entry) : list path :=
  flat_map (fun e => match e with
                     | Entry (EvGlob _ _) found => found
                     | Entry _ _ => []
                     end) tr.

Definition is_write (e : entry) : bool :=
  match e with
  | Entry (EvWriteText _ _) _ => true
  | Entry _ _ => false
  end.

Definition confirm_prompt : str := py "Proceed with customization? [Y/n]: ".

(** Every event of the trace is an existence test, a read or a write of
    one of [files], or a printed line. *)
Definition scans_only (files : list path) (tr : list entry) : Prop :=
  Forall (fun e => match e with
                   | Entry (EvExists p) _ => In p files
                   | Entry (EvReadText p) _ => In p files
                   | Entry (EvWriteText p _) _ => In p files
                   | Entry (EvPrint _) _ => True
                   | Entry _ _ => False
                   end) tr.

(** Every move of the trace takes the old package directory of a source
    root, found to exist, to the new package directory of that root, whose
    parent was made; directories are removed only once a move is done;
    nothing is renamed or written. *)
Definition moves_checked (repo : path) (cfg : settings) (tr : list entry)
  : Prop :=
  (forall src dst, In (src, dst) (moves tr) ->
     In src (found tr) /\ In (path_parent dst) (made_dirs tr) /\
     exists root, In root src_roots /\
       src = repo // root // old_package_path /\
       dst = repo // root // new_package_path cfg) /\
  (rmdirs tr <> [] -> moves_done tr <> []) /\
  renames tr = [] /\ writes tr = [].

(** Every renaming of the trace takes a path handed over by a glob to the
    path made of its parent and of its name with [Todo] replaced by the
    Pascal name; nothing is moved, removed or written. *)
Definition renames_checked (cfg : settings) (tr : list entry) : Prop :=
  (forall src dst, In (src, dst) (renames tr) ->
     In src (globbed tr) /\
     dst = path_parent src //
           str_replace (py "Todo") (pascal_name cfg) (path_name src)) /\
  moves tr = [] /\ rmdirs tr = [] /\ writes tr = [].

(** The renamings of one directory listing, each of a listed path. *)
Definition renames_listed (cfg : settings) (listed : list path)
    (tr : list entry) : Prop :=
  (forall src dst, In (src, dst) (renames tr) ->
     In src listed /\
     dst = path_parent src //
           str_replace (py "Todo") (pascal_name cfg) (path_name src)) /\
  globbed tr = [] /\ moves tr = [] /\ rmdirs tr = [] /\ writes tr = [].

(** The paths handed over by the globs, recursive or not. *)
Definition listed (tr : list entry) : list path :=
  flat_map (fun e => match e with
                     | Entry (EvGlob _ _) paths => paths
                     | Entry (EvRglob _ _) paths => paths
                     | Entry _ _ => []
                     end) tr.

(** A run with one more answered event in front. *)
Definition push {S R : Type} (e : entry) (r : run S R) : run S R :=
  {| outcome := outcome r; final := final r; trace := e :: trace r |}.

(** [a in s] for a character. *)
Definition mem_char (a : ascii) (s : str) : bool := existsb (Ascii.eqb a) s.

(** The search string [p] and the replacement [n] cannot touch: both are
    non-empty, the first character of [n] does not occur in [p] and the
    first character of [p] does not occur in [n]. *)
Definition clear_of (p n : str) : bool :=
  match p, n with
  | b :: _, a :: _ => negb (mem_char a p) && negb (mem_char b n)
  | _, _ => false
  end.

(** Every search string of the table is clear of every replacement of the
    table. *)
Definition separated (table : replacements) : bool :=
  forallb (fun e => forallb (fun e' => clear_of (fst e) (snd e')) table) table.

(** ** File stores

    What the files hold, as [replace_in_files] can see it: a path names no
    file, a text file, or a file that does not decode as UTF-8. *)
Inductive file_state : Type :=
| Missing
| Text (text : str)
| Undecodable.



(** The simplest file store: a function from paths to file states. *)
Definition table_store : handler (path -> file_state) :=
  fun X ev =>
    match ev in event T
          return (path -> file_state) -> T * (path -> file_state) with
    | EvInput _ => fun st => (Err EOFError, st)
    | EvPrint _ => fun st => (tt, st)
    | EvExists p => fun st =>
        (match st p with Missing => false | _ => true end, st)
    | EvMkdirParents _ => fun st => (Err OSError, st)
    | EvMove _ _ => fun st => (Err OSError, st)
    | EvRmdir _ => fun st => (Err OSError, st)
    | EvGlob _ _ => fun st => ([], st)
    | EvRglob _ _ => fun st => ([], st)
    | EvRename _ _ => fun st => (Err OSError, st)
    | EvReadText p => fun st =>
        (match st p with
         | Text text => Ok text
         | Undecodable => Err UnicodeDecodeError
         | Missing => Err OSError
         end, st)
    | EvWriteText p text => fun st =>
        (Ok tt, fun q => if str_eqb q p then Text text else st q)
    end.

(** Three files: one to change, one to leave, one that does not decode. *)
Definition three_files : path -> file_state :=
  fun p =>
    if str_eqb p (py "pom.xml") then Text (py "<name>QBit Todo</name>")
    else if str_eqb p (py "LICENSE.md") then Text (py "Apache License 2.0")
    else if str_eqb p (py "logo.yml") then Undecodable
    else Missing.

(** The three of them and a path that names no file. *)
Definition four_paths : list path :=
  [py "pom.xml"; py "LICENSE.md"; py "logo.yml"; py "missing.md"].

(** * Properties *)

(** The blanks outside ASCII are separators and are stripped, as in
    Python. *)
Example blanks_outside_ascii :
  let nbsp := ascii_of_nat 160 in
  let nel := ascii_of_nat 133 in
  to_pascal_case [nbsp] = [] /\
  to_pascal_case (py "a" ++ nbsp :: py "b") = py "AB" /\
  to_package_name (py "a" ++ nel :: py "b") = py "ab" /\
  str_lower (str_strip (nbsp :: py "n")) = py "n" /\
  str_strip (py "x" ++ [nel; nbsp]) = py "x".
Proof. vm_compute. repeat split. Qed.

Example pascal_examples :
  to_pascal_case (py "my-qbit") = py "MyQbit" /\
  to_pascal_case (py "my_qbit") = py "MyQbit" /\
  to_pascal_case (py "-a--b c_") = py "ABC" /\
  re_split_seps (py "-a--b c_") = [py ""; py "a"; py "b"; py "c"; py ""].
Proof. repeat split; reflexivity. Qed.

Example kebab_examples :
  to_kebab_case (py "MyQbit") = py "my-qbit" /\
  to_kebab_case (py "my_qbit") = py "my-qbit" /\
  to_kebab_case (py "aBcDe") = py "a-bc-de" /\
  to_kebab_case (py "HTTPServer2Go") = py "http-server2-go" /\
  to_kebab_case (py "my Feature") = py "my--feature".
Proof. repeat split; reflexivity. Qed.

Example replace_examples :
  str_replace (py "aa") (py "b") (py "aaaaa") = py "bba" /\
  str_replace (py "") (py "x") (py "abc") = py "xaxbxcx" /\
  str_replace (py "Todo") (py "MyFeature") (py "TodoQBit Todo") =
    py "MyFeatureQBit MyFeature".
Proof. repeat split; reflexivity. Qed.

Example scenario_runs :
  outcome scenario = Ok Customized /\
  map fst (writes (trace scenario)) =
    [py "repo/src/main/java/com/acme/myfeature/MyFeatureQBitConfig.java";
     py "repo/pom.xml"; py "repo/README.md"] /\
  lookup (py "repo/pom.xml") (snd (final scenario)) =
    Some (TextFile (py "<artifactId>qbit-my-feature</artifactId><name>QBit MyFeature</name>")).
Proof. vm_compute. repeat split; reflexivity. Qed.

(** ** Characters *)

Ltac ascii_cases c :=
  let b0 := fresh in let b1 := fresh in let b2 := fresh in
  let b3 := fresh in let b4 := fresh in let b5 := fresh in
  let b6 := fresh in let b7 := fresh in
  destruct c as [b0 b1 b2 b3 b4 b5 b6 b7];
  destruct b0, b1, b2, b3, b4, b5, b6, b7.

Lemma lower_char_not_upper c : is_upper (lower_char c) = false.
Proof. ascii_cases c; reflexivity. Qed.

Lemma lower_char_fixed c : is_upper c = false -> lower_char c = c.
Proof. unfold lower_char; intros ->; reflexivity. Qed.

Lemma lower_char_is_lower c :
  is_lower (lower_char c) = is_upper c || is_lower c.
Proof. ascii_cases c; reflexivity. Qed.

Lemma kebab_char_not_upper c : is_upper (kebab_char c) = false.
Proof. ascii_cases c; reflexivity. Qed.

Lemma kebab_char_idem c : kebab_char (kebab_char c) = kebab_char c.
Proof. ascii_cases c; reflexivity. Qed.

(** ** C9: the derived forms of [my-feature] *)

(** C9: for the name [my-feature] the derivations give the kebab form
    [my-feature], the Pascal form [MyFeature], the camel form [myFeature]
    and the package form [myfeature]. *)
Theorem derived_forms_of_my_feature :
  to_kebab_case (py "my-feature") = py "my-feature" /\
  to_pascal_case (py "my-feature") = py "MyFeature" /\
  to_camel_case (py "my-feature") = py "myFeature" /\
  to_package_name (py "my-feature") = py "myfeature".
Proof. repeat split; reflexivity. Qed.

(** ** C1: what [capitalize] does to the rest of a word *)

(** C1 (the code departs from the claim): on the name [MyQbit], which the
    docstring of [to_camel_case] maps to [myQbit], the Pascal form comes out
    as [Myqbit] and the camel form as [myqbit]: the characters after the
    first one of a word are lower-cased, not kept. *)
Theorem pascal_case_lowers_word_tails :
  to_pascal_case (py "MyQbit") = py "Myqbit" /\
  to_camel_case (py "MyQbit") = py "myqbit" /\
  to_pascal_case (py "my-qBit") = py "MyQbit".
Proof. repeat split; reflexivity. Qed.

(** ** C6: blanks other than the space in [to_kebab_case] *)

(** C6 (the code departs from the claim): a tab inside the name is a word
    separator for [to_pascal_case] and [to_package_name], but
    [to_kebab_case] replaces only ['_'] and [' '] and leaves the tab where
    it is. *)
Theorem kebab_case_keeps_tab :
  to_kebab_case (py "my" ++ [tab] ++ py "feature") =
    py "my" ++ [tab] ++ py "feature" /\
  to_kebab_case (py "my feature") = py "my-feature" /\
  to_pascal_case (py "my" ++ [tab] ++ py "feature") = py "MyFeature" /\
  to_package_name (py "my" ++ [tab] ++ py "feature") = py "myfeature".
Proof. repeat split; reflexivity. Qed.

(** ** C5: the head of the camel form *)

Lemma C5_camel_head_digit :
  py "2fa" <> [] /\ to_pascal_case (py "2fa") <> [] /\
  to_camel_case (py "2fa") = py "2fa" /\
  ~ camel_head_lowercase_at (py "2fa").
Proof.
  repeat split; try discriminate.
  intros (c & rest & p & prest & Hc & _ & Hl & _).
  vm_compute in Hc. injection Hc as <- _. discriminate Hl.
Qed.

(** C5 (amended): for a name [x] of ASCII characters whose Pascal form is
    not empty, the camel form is the Pascal form with its first character
    lower-cased and the remainder untouched; that first character is never
    an upper-case letter, and it is a lower-case letter exactly when the
    Pascal form starts with a letter. *)
Theorem camel_case_head (x : str) (p : ascii) (prest : str) :
  ascii_only x ->
  to_pascal_case x = p :: prest ->
  to_camel_case x = lower_char p :: prest /\
  is_upper (lower_char p) = false /\
  is_lower (lower_char p) = (is_upper p || is_lower p).
Proof.
  intros _ H. unfold to_camel_case. rewrite H.
  split; [reflexivity|].
  split; [apply lower_char_not_upper | apply lower_char_is_lower].
Qed.

Lemma camel_case_head_witness :
  ascii_only (py "my-feature") /\
  to_pascal_case (py "my-feature") = "M"%char :: py "yFeature" /\
  (to_camel_case (py "my-feature") = lower_char "M" :: py "yFeature" /\
   is_upper (lower_char "M") = false /\
   is_lower (lower_char "M") = (is_upper "M" || is_lower "M")).
Proof.
  assert (H : ascii_only (py "my-feature")) by (repeat constructor; cbn; lia).
  split; [exact H|]. split; [reflexivity|].
  apply (camel_case_head (py "my-feature") "M"%char (py "yFeature"));
    [exact H | reflexivity].
Defined.

(** ** C10: [to_kebab_case] is idempotent *)

Lemma replace_one_char (a b : ascii) (s : str) :
  str_replace [a] [b] s = map (fun c => if (c =? a)%char then b else c) s.
Proof.
  unfold str_replace. induction s as [|c rest IH]; [reflexivity|].
  simpl. rewrite Ascii.eqb_sym.
  destruct (c =? a)%char; simpl; now rewrite IH.
Qed.

Lemma to_kebab_case_chars (name : str) :
  to_kebab_case name = map kebab_char (re_sub_hump (re_sub_title false name)).
Proof.
  unfold to_kebab_case, str_lower. cbn [py list_ascii_of_string].
  rewrite !replace_one_char, !map_map. reflexivity.
Qed.

Lemma re_sub_title_no_upper (s : str) :
  no_upper s -> forall in_run, re_sub_title in_run s = s.
Proof.
  induction 1 as [|c rest Hc Hrest IH]; intros in_run; [reflexivity|].
  cbn [re_sub_title].
  destruct (in_run && is_lower c); [now rewrite IH|].
  destruct Hrest as [|u rest' Hu Hrest']; [reflexivity|].
  destruct rest' as [|l rest'']; [now rewrite IH|].
  rewrite Hu, andb_false_r. cbn [andb]. now rewrite IH.
Qed.

Lemma re_sub_hump_no_upper (s : str) : no_upper s -> re_sub_hump s = s.
Proof.
  induction 1 as [|c rest Hc Hrest IH]; [reflexivity|].
  cbn [re_sub_hump].
  destruct Hrest as [|u rest' Hu Hrest']; [reflexivity|].
  rewrite Hu, andb_false_r. now rewrite IH.
Qed.

Lemma kebab_chars_no_upper (s : str) : no_upper (map kebab_char s).
Proof.
  induction s; constructor; auto using kebab_char_not_upper.
Qed.

(** C10: applying [to_kebab_case] to its own output changes nothing. *)
Theorem to_kebab_case_idempotent (x : str) :
  to_kebab_case (to_kebab_case x) = to_kebab_case x.
Proof.
  rewrite (to_kebab_case_chars (to_kebab_case x)), (to_kebab_case_chars x).
  set (s := re_sub_hump (re_sub_title false x)).
  rewrite (re_sub_title_no_upper _ (kebab_chars_no_upper s)).
  rewrite (re_sub_hump_no_upper _ (kebab_chars_no_upper s)).
  rewrite map_map. apply map_ext. intros c. apply kebab_char_idem.
Qed.

(** ** C3: running the replacement table twice *)


Lemma replace_scan_absent (old new s : str) :
  occurs old s = false -> replace_scan old new 0 s = s.
Proof.
  induction s as [|c rest IH]; [reflexivity|].
  cbn [occurs replace_scan]. intros H.
  apply orb_false_elim in H as [Hhere Hrest].
  rewrite Hhere, (IH Hrest). reflexivity.
Qed.

Lemma str_replace_absent (old new s : str) :
  occurs old s = false -> str_replace old new s = s.
Proof.
  destruct old as [|a old'].
  - destruct s; discriminate.
  - apply replace_scan_absent.
Qed.

Lemma apply_replacements_settled (table : replacements) (text : str) :
  settled table text = true -> apply_replacements table text = text.
Proof.
  unfold apply_replacements, settled.
  induction table as [|[old new] table IH]; [reflexivity|].
  cbn [forallb fold_left fst snd]. intros H.
  apply andb_prop in H as [Hold Htable].
  apply negb_true_iff in Hold.
  rewrite (str_replace_absent _ _ _ Hold). auto.
Qed.

(** Occurrences of a search string. *)



Lemma starts_with_head (b : ascii) (p : str) (c : ascii) (z : str) :
  starts_with (b :: p) (c :: z) = true -> b = c.
Proof. cbn. intros [Hb _]%andb_prop. now apply Ascii.eqb_eq. Qed.







(** The scanner of [str.replace], one occurrence at a time. *)










Lemma occurs_without_head (b : ascii) (p x : str) :
  mem_char b x = false -> occurs (b :: p) x = false.
Proof.
  unfold mem_char. induction x as [|c x IH]; [reflexivity|].
  cbn [existsb occurs starts_with]. intros [Hc Hx]%orb_false_elim.
  rewrite Hc, (IH Hx). reflexivity.
Qed.

(** The condition on the table is stronger than the one of the
    specification: a separated table has no search string inside its own
    replacement. *)
Lemma separated_no_self_match (table : replacements) :
  separated table = true -> no_self_match table = true.
Proof.
  unfold separated, no_self_match. rewrite !forallb_forall.
  intros Hsep e He. specialize (Hsep e He). rewrite forallb_forall in Hsep.
  specialize (Hsep e He). unfold clear_of in Hsep.
  destruct (fst e) as [|b p]; [discriminate|].
  destruct (snd e) as [|a n]; [discriminate|].
  apply andb_prop in Hsep as [_ Hb]. apply negb_true_iff in Hb.
  apply negb_true_iff. now apply occurs_without_head.
Qed.

(** ** Running programs *)

Lemma exec_bind {S A B : Type} (h : handler S) (p : prog A) (f : A -> prog B) :
  forall s,
    exec h (bind p f) s =
    match outcome (exec h p s) with
    | Ok a =>
        let r := exec h (f a) (final (exec h p s)) in
        {| outcome := outcome r; final := final r;
           trace := trace (exec h p s) ++ trace r |}
    | Err e =>
        {| outcome := Err e; final := final (exec h p s);
           trace := trace (exec h p s) |}
    end.
Proof.
  induction p as [a|e|X ev k IH]; intros s; cbn [bind exec].
  - cbn. destruct (exec h (f a) s); reflexivity.
  - reflexivity.
  - destruct (h X ev s) as [x s1]. rewrite IH.
    cbn [outcome final trace].
    destruct (outcome (exec h (k x) s1)); reflexivity.
Qed.

Lemma writes_app (t1 t2 : list entry) : writes (t1 ++ t2) = writes t1 ++ writes t2.
Proof. apply flat_map_app. Qed.

Lemma reads_app (t1 t2 : list entry) : reads (t1 ++ t2) = reads t1 ++ reads t2.
Proof. apply flat_map_app. Qed.

(** ** C7: a file is written back exactly when its text changed *)

Lemma writes_follow_changes_app table t1 t2 :
  writes_follow_changes table t1 -> writes_follow_changes table t2 ->
  writes_follow_changes table (t1 ++ t2).
Proof.
  intros H1 H2 file changed. rewrite writes_app, reads_app, in_app_iff.
  rewrite (H1 file changed), (H2 file changed). split.
  - intros [(text & Hin & Heq)|(text & Hin & Heq)]; exists text;
      rewrite in_app_iff; auto.
  - intros (text & Hin & Heq). apply in_app_iff in Hin as [Hin|Hin];
      [left|right]; exists text; auto.
Qed.

Lemma str_eqb_eq (a b : str) : str_eqb a b = true <-> a = b.
Proof.
  unfold str_eqb. destruct (list_eq_dec ascii_dec a b); split; congruence.
Qed.

Ltac answer h :=
  match goal with
  | |- context [h ?X ?ev ?s] =>
      let x := fresh "x" in
      let s' := fresh "s" in
      destruct (h X ev s) as [x s']
  end.

Lemma replace_in_file_writes {S} (h : handler S) (s : S) table file :
  writes_follow_changes table (trace (exec h (replace_in_file table file) s)).
Proof.
  unfold replace_in_file, ask, call, print.
  cbn [bind exec try_except].
  answer h. destruct x; cbn [negb exec trace bind try_except].
  2:{ intros f c; cbn; split; [tauto | intros (t & [] & _)]. }
  answer h. destruct x as [text|e]; cbn [bind try_except exec trace].
  - destruct (str_eqb (apply_replacements table text) text) eqn:E;
      cbn [negb bind exec trace ask].
    + apply str_eqb_eq in E.
      intros f c; cbn; split; [tauto|].
      intros (t & [Ht|[]] & Hc & Hne). inversion Ht; subst. congruence.
    + assert (Hne : apply_replacements table text <> text).
      { intros Habs. apply str_eqb_eq in Habs. congruence. }
      answer h. destruct x as [[]|e]; cbn [bind exec trace ask];
        [answer h; cbn [exec trace]|].
      all: intros f c; cbn; split.
      all: try (intros [Hw|[]]; inversion Hw; subst; exists text; now auto).
      all: intros (t & [Ht|[]] & Hc & Hne'); inversion Ht; subst; now left.
  - destruct e; cbn [exec trace];
      intros f c; cbn; split; try tauto; intros (t & [] & _).
Qed.

(** While [replace_in_files] runs, in any environment, a text is written
    to a file exactly when that file was read and applying the whole table
    to the text read gives a different text, which is the text written; a
    file whose text the table leaves unchanged is not written. *)
Lemma replace_in_files_writes_follow_reads
    {S : Type} (h : handler S) (s : S) (files : list path)
    (table : replacements) (file : path) (changed : str) :
  In (file, changed)
     (writes (trace (exec h (replace_in_files files table) s))) <->
  exists text,
    In (file, text)
       (reads (trace (exec h (replace_in_files files table) s))) /\
    changed = apply_replacements table text /\ changed <> text.
Proof.
  revert file changed. fold (writes_follow_changes table).
  unfold replace_in_files. revert s.
  induction files as [|f files IH]; intros s.
  - intros file changed; cbn; split; [tauto | intros (t & [] & _)].
  - cbn [for_each]. rewrite exec_bind.
    pose proof (replace_in_file_writes h s table f) as Hf.
    destruct (outcome (exec h (replace_in_file table f) s)).
    + cbn [trace]. apply writes_follow_changes_app; [exact Hf|].
      intros file changed. apply IH.
    + exact Hf.
Qed.

Lemma exec_vis {S R X : Type} (h : handler S) (ev : event X)
    (k : X -> prog R) (s : S) :
  exec h (Vis ev k) s =
  push (Entry ev (fst (h _ ev s)))
       (exec h (k (fst (h _ ev s))) (snd (h _ ev s))).
Proof. cbn [exec]. destruct (h X ev s). reflexivity. Qed.





(** The same run, evaluated: of the four paths only [pom.xml] is written. *)
Example replace_in_files_on_three_files :
  writes (trace (exec table_store
     (replace_in_files four_paths (main_replacements my_feature_settings))
     three_files)) =
  [(py "pom.xml", py "<name>QBit MyFeature</name>")].
Proof. vm_compute. reflexivity. Qed.


(** ** C8: [main] without a [pom.xml] *)

(** C8: in any environment where [pom.xml] does not exist under the
    repository root, [main] raises [SystemExit] with its explanatory message
    right after that one existence test: nothing else is asked of the
    environment, so no directory is moved, no file renamed and no file
    written. *)
Theorem main_stops_without_pom
    {S : Type} (h : handler S) (s : S) (repo : path) :
  fst (h _ (EvExists (repo // py "pom.xml")) s) = false ->
  outcome (exec h (main repo) s) =
    Err (SystemExit (py "Run from the template repo; pom.xml not found.")) /\
  trace (exec h (main repo) s) =
    [Entry (EvExists (repo // py "pom.xml")) false] /\
  mutations (trace (exec h (main repo) s)) = [] /\
  final (exec h (main repo) s) = snd (h _ (EvExists (repo // py "pom.xml")) s).
Proof.
  intros H. unfold main. cbn [bind exec ask].
  destruct (h _ (EvExists (repo // py "pom.xml")) s) as [found s1].
  cbn [fst] in H. subst found.
  cbn [negb exec outcome trace final snd mutations filter is_mutation].
  repeat split; reflexivity.
Qed.

Lemma main_stops_without_pom_witness :
  fst (memfs_handler _ (EvExists (py "repo" // py "pom.xml"))
         [(py "repo", Directory)]) = false /\
  outcome (exec memfs_handler (main (py "repo")) [(py "repo", Directory)]) =
    Err (SystemExit (py "Run from the template repo; pom.xml not found.")) /\
  trace (exec memfs_handler (main (py "repo")) [(py "repo", Directory)]) =
    [Entry (EvExists (py "repo" // py "pom.xml")) false] /\
  mutations
    (trace (exec memfs_handler (main (py "repo")) [(py "repo", Directory)]))
    = [] /\
  final (exec memfs_handler (main (py "repo")) [(py "repo", Directory)]) =
    snd (memfs_handler _ (EvExists (py "repo" // py "pom.xml"))
           [(py "repo", Directory)]).
Proof.
  split; [reflexivity|].
  apply (main_stops_without_pom memfs_handler [(py "repo", Directory)]
           (py "repo")).
  reflexivity.
Defined.

(** ** C4: the confirmation prompt *)

Lemma customize_not_aborted {S} (h : handler S) (s : S) repo cfg :
  outcome (exec h (customize repo cfg) s) <> Ok Aborted.
Proof.
  unfold customize.
  repeat (rewrite exec_bind;
          match goal with
          | |- context [match outcome ?r with _ => _ end] =>
              destruct (outcome r); cbn [outcome]; [|discriminate]
          end).
  cbn. discriminate.
Qed.

Lemma customize_announces_move {S} (h : handler S) (s : S) repo cfg :
  In (py "Moving source files...")
     (printed (trace (exec h (customize repo cfg) s))).
Proof.
  unfold customize, move_sources.
  rewrite exec_bind.
  assert (Hm : forall k : prog unit, In (py "Moving source files...")
             (printed (trace (exec h
                (print [] ;; print (py "Moving source files...") ;; k) s)))).
  { intros k. unfold print, ask. cbn [bind exec].
    answer h. cbn [trace]. answer h. cbn [trace printed flat_map].
    right. left. reflexivity. }
  match goal with
  | |- context [exec h (print [] ;; print _ ;; ?k) s] => specialize (Hm k)
  end.
  destruct (outcome _); cbn [trace]; [|exact Hm].
  unfold printed in *. rewrite flat_map_app. apply in_or_app. now left.
Qed.

Lemma printed_cons (line : str) (e : entry) (tr : list entry) :
  In line (printed tr) -> In line (printed (e :: tr)).
Proof. intros H. apply (in_or_app _ (printed tr)). now right. Qed.

(** C4 (amended): with [pom.xml] present and the five prompts answered,
    [main] returns through its ["Aborted."] branch exactly when the answer
    to the confirmation prompt, stripped of surrounding blanks and
    lower-cased, is [n] (so also for [N] and for [n] between blanks); in
    that case nothing in the file system is changed.  For every other
    answer the customization is started. *)
Theorem confirmation_gate
    {F : Type} (hfs : handler F) (f : F) (repo : path)
    (name group artifact org answer : str) (more : list str) :
  fst (hfs _ (EvExists (repo // py "pom.xml")) f) = true ->
  let r := exec (console hfs) (main repo)
             (name :: group :: artifact :: org :: answer :: more, f) in
  (outcome r = Ok Aborted <-> str_lower (str_strip answer) = py "n") /\
  (str_lower (str_strip answer) = py "n" ->
     mutations (trace r) = [] /\
     In (py "Aborted.") (printed (trace r)) /\
     final r = (more, snd (hfs _ (EvExists (repo // py "pom.xml")) f))) /\
  (str_lower (str_strip answer) <> py "n" ->
     In (py "Moving source files...") (printed (trace r))).
Proof.
  intros H r. subst r. unfold main.
  cbn [bind exec ask call print prompt console fst snd].
  destruct (hfs _ (EvExists (repo // py "pom.xml")) f) as [found f1].
  cbn [fst] in H. subst found.
  cbn [bind exec ask call print prompt console fst snd negb
       outcome final trace].
  destruct (str_eqb (str_lower (str_strip answer)) (py "n")) eqn:E;
    cbn [bind exec ask call print prompt console fst snd negb
         outcome final trace].
  - apply str_eqb_eq in E.
    split; [tauto|]. split; [|congruence].
    intros _. split; [reflexivity|]. split; [|reflexivity].
    repeat match goal with
           | |- In _ (printed (_ :: _ :: _)) => apply printed_cons
           end.
    left. reflexivity.
  - assert (Hne : str_lower (str_strip answer) <> py "n").
    { intros Habs. apply str_eqb_eq in Habs. congruence. }
    split; [|split].
    + split; [|tauto]. intros Habs.
      exfalso. revert Habs. apply customize_not_aborted.
    + tauto.
    + intros _.
      repeat match goal with
             | |- In _ (printed (_ :: _)) => apply printed_cons
             end.
      apply customize_announces_move.
Qed.

Lemma confirmation_gate_witness :
  fst (memfs_handler _ (EvExists (py "repo" // py "pom.xml")) template_repo)
    = true /\
  let r := exec (console memfs_handler) (main (py "repo"))
             (py "my-feature" :: py "com.acme" :: py "" :: py "" ::
              py " N " :: [], template_repo) in
  (outcome r = Ok Aborted <-> str_lower (str_strip (py " N ")) = py "n") /\
  (str_lower (str_strip (py " N ")) = py "n" ->
     mutations (trace r) = [] /\
     In (py "Aborted.") (printed (trace r)) /\
     final r = ([], snd (memfs_handler _
                           (EvExists (py "repo" // py "pom.xml"))
                           template_repo))) /\
  (str_lower (str_strip (py " N ")) <> py "n" ->
     In (py "Moving source files...") (printed (trace r))).
Proof.
  split; [reflexivity|].
  apply (confirmation_gate memfs_handler template_repo (py "repo")
           (py "my-feature") (py "com.acme") (py "") (py "") (py " N ") []).
  reflexivity.
Defined.

Lemma C4_capital_n_aborts : ~ aborts_only_on_exact_n (py "N").
Proof.
  intros [H _].
  assert (Hrun : outcome (confirm_run (py "N")) = Ok Aborted)
    by (vm_compute; reflexivity).
  apply H in Hrun. discriminate Hrun.
Qed.

Example confirmation_answers :
  outcome (confirm_run (py "n")) = Ok Aborted /\
  outcome (confirm_run (py " n ")) = Ok Aborted /\
  mutations (trace (confirm_run (py "N"))) = [] /\
  outcome (confirm_run (py "no")) = Ok Customized /\
  outcome (confirm_run (py "")) = Ok Customized.
Proof. vm_compute. repeat split; reflexivity. Qed.

(** ** C2: from kebab-case to PascalCase and back *)

Lemma C2_one_letter_words :
  forallb lowercase_word [py "a"; py "b"] = true /\
  kebab_join [py "a"; py "b"] = py "a-b" /\
  ~ round_trip_at (py "a-b").
Proof.
  repeat split; try reflexivity.
  intros H; vm_compute in H; discriminate H.
Qed.

(** Facts on characters. *)

Lemma word_char_not_upper c : is_word_char c = true -> is_upper c = false.
Proof. ascii_cases c; (reflexivity || discriminate). Qed.

Lemma word_char_is_dot c : is_word_char c = true -> is_dot c = true.
Proof. ascii_cases c; (reflexivity || discriminate). Qed.

Lemma word_char_not_sep c : is_word_char c = true -> is_sep c = false.
Proof. ascii_cases c; (reflexivity || discriminate). Qed.

Lemma word_char_kebab c : is_word_char c = true -> kebab_char c = c.
Proof. ascii_cases c; (reflexivity || discriminate). Qed.

Lemma lower_is_word_char c : is_lower c = true -> is_word_char c = true.
Proof. unfold is_word_char. intros ->. reflexivity. Qed.

Lemma upper_not_word_char c : is_upper c = true -> is_word_char c = false.
Proof. ascii_cases c; (reflexivity || discriminate). Qed.

Lemma upper_not_lower c : is_upper c = true -> is_lower c = false.
Proof. ascii_cases c; (reflexivity || discriminate). Qed.

Lemma upper_is_dot c : is_upper c = true -> is_dot c = true.
Proof. ascii_cases c; (reflexivity || discriminate). Qed.

Lemma upper_char_of_lower c :
  is_lower c = true ->
  is_upper (upper_char c) = true /\ kebab_char (upper_char c) = c.
Proof. ascii_cases c; (split; reflexivity) || discriminate. Qed.

(** The local view of [re_sub_hump]. *)

Lemma re_sub_hump_step (c u : ascii) (rest : str) :
  re_sub_hump (c :: u :: rest) =
  if is_word_char c && is_upper u
  then c :: "-"%char :: u :: re_sub_hump rest
  else c :: re_sub_hump (u :: rest).
Proof. reflexivity. Qed.

Lemma hump_local_step (b : bool) (c : ascii) (rest : str) :
  hump_local b (c :: rest) =
  hyphen_if (b && is_upper c) ++ c :: hump_local (is_word_char c) rest.
Proof. reflexivity. Qed.

Lemma re_sub_hump_local_upto (n : nat) :
  forall s, length s <= n -> re_sub_hump s = hump_local false s.
Proof.
  induction n as [|n IH]; intros s Hlen.
  - destruct s; [reflexivity | cbn in Hlen; lia].
  - destruct s as [|c [|u rest]]; [reflexivity | reflexivity |].
    cbn [length] in Hlen.
    rewrite re_sub_hump_step, !hump_local_step.
    cbn [andb hyphen_if app].
    destruct (is_word_char c && is_upper u) eqn:E; cbn [hyphen_if app].
    + apply andb_prop in E as [_ Hu].
      rewrite (upper_not_word_char _ Hu).
      rewrite IH by lia. reflexivity.
    + rewrite IH by (cbn [length]; lia).
      rewrite hump_local_step. reflexivity.
Qed.

Lemma re_sub_hump_local (s : str) : re_sub_hump s = hump_local false s.
Proof. apply (re_sub_hump_local_upto (length s)). lia. Qed.

(** Steps of the scanner of [re_sub_title]. *)

Lemma re_sub_title_step (b : bool) (c : ascii) (rest : str) :
  re_sub_title b (c :: rest) =
  if b && is_lower c then c :: re_sub_title true rest
  else
    match rest with
    | u :: ((l :: _) as rest') =>
        if is_dot c && is_upper u && is_lower l
        then c :: "-"%char :: u :: re_sub_title true rest'
        else c :: re_sub_title false rest
    | _ => c :: re_sub_title false rest
    end.
Proof. reflexivity. Qed.

(** In front of a character that is not an upper-case letter nothing is
    inserted. *)
Lemma title_before_other (b : bool) (c u : ascii) (s : str) :
  is_upper u = false ->
  exists b', re_sub_title b (c :: u :: s) = c :: re_sub_title b' (u :: s).
Proof.
  intros Hu. rewrite re_sub_title_step.
  destruct (b && is_lower c); [now exists true|].
  exists false. destruct s; [reflexivity|].
  now rewrite Hu, andb_false_r.
Qed.

(** In front of an upper-case letter: either nothing is inserted, or the
    letter starts a Title-case word and gets its hyphen. *)
Lemma title_before_capital (b : bool) (c u : ascii) (z : str) :
  is_dot c = true -> is_upper u = true ->
  (exists b', re_sub_title b (c :: u :: z) = c :: re_sub_title b' (u :: z)) \/
  (exists l z', z = l :: z' /\ is_lower l = true /\
     re_sub_title b (c :: u :: z) = c :: "-"%char :: u :: re_sub_title true z).
Proof.
  intros Hc Hu. rewrite re_sub_title_step.
  destruct (b && is_lower c); [left; now exists true|].
  destruct z as [|l z']; [left; now exists false|].
  rewrite Hc, Hu. cbn [andb].
  destruct (is_lower l) eqn:Hl.
  - right. now exists l, z'.
  - left. now exists false.
Qed.

(** A capital whose successor is not a capital is copied. *)
Lemma title_at_capital (b : bool) (u c : ascii) (s : str) :
  is_upper u = true -> is_upper c = false ->
  re_sub_title b (u :: c :: s) = u :: re_sub_title false (c :: s).
Proof.
  intros Hu Hc. rewrite re_sub_title_step.
  rewrite (upper_not_lower _ Hu), andb_false_r.
  destruct s; [reflexivity|]. now rewrite Hc, andb_false_r.
Qed.

Lemma title_at_last (b : bool) (c : ascii) : re_sub_title b [c] = [c].
Proof. rewrite re_sub_title_step. now destruct (b && is_lower c). Qed.

(** A one-letter word followed by a Title-case word. *)
Lemma title_at_lone_capital (b : bool) (u u2 l : ascii) (s : str) :
  is_upper u = true -> is_upper u2 = true -> is_lower l = true ->
  re_sub_title b (u :: u2 :: l :: s) =
  u :: "-"%char :: u2 :: re_sub_title true (l :: s).
Proof.
  intros Hu Hu2 Hl. rewrite re_sub_title_step.
  rewrite (upper_not_lower _ Hu), andb_false_r.
  now rewrite (upper_is_dot _ Hu), Hu2, Hl.
Qed.

(** Words and their capitalized forms. *)

Lemma word_chars_cons c r :
  word_chars (c :: r) <-> is_word_char c = true /\ word_chars r.
Proof. unfold word_chars. cbn [forallb]. apply andb_true_iff. Qed.

Lemma kebab_word_cons c r :
  kebab_word (c :: r) = true <-> is_lower c = true /\ word_chars r.
Proof. unfold word_chars. cbn [kebab_word]. apply andb_true_iff. Qed.

Lemma str_lower_word_chars r : word_chars r -> str_lower r = r.
Proof.
  induction r as [|c r IH]; [reflexivity|].
  intros [Hc Hr]%word_chars_cons. cbn [str_lower map].
  rewrite (lower_char_fixed _ (word_char_not_upper _ Hc)).
  f_equal. now apply IH.
Qed.

Lemma caps_cons c r words :
  word_chars r ->
  caps ((c :: r) :: words) = upper_char c :: r ++ caps words.
Proof.
  intros Hr. unfold caps. cbn [map concat str_capitalize].
  now rewrite (str_lower_word_chars _ Hr).
Qed.

Lemma tails_cons w words : tails (w :: words) = "-"%char :: w ++ tails words.
Proof. reflexivity. Qed.

Lemma kebab_join_tails w words : kebab_join (w :: words) = w ++ tails words.
Proof.
  revert w. induction words as [|w2 words IH]; intros w.
  - cbn. now rewrite app_nil_r.
  - change (kebab_join (w :: w2 :: words))
      with (w ++ py "-" ++ kebab_join (w2 :: words)).
    now rewrite IH, tails_cons.
Qed.

Lemma map_kebab_hyphen_if (b : bool) (s : str) :
  map kebab_char (hyphen_if b ++ s) = hyphen_if b ++ map kebab_char s.
Proof. now destruct b. Qed.

(** A run of word characters goes through unchanged. *)
Lemma word_chars_plain (r : str) :
  word_chars r -> forall b p,
  map kebab_char (hump_local p (re_sub_title b r)) = r.
Proof.
  intros Hr b p.
  assert (Hup : no_upper r).
  { induction r as [|c r IH]; constructor.
    - apply word_char_not_upper. now apply word_chars_cons in Hr.
    - apply IH. now apply word_chars_cons in Hr. }
  rewrite (re_sub_title_no_upper _ Hup).
  clear Hup. revert p. induction r as [|c r IH]; intros p; [reflexivity|].
  apply word_chars_cons in Hr as [Hc Hr].
  rewrite hump_local_step, (word_char_not_upper _ Hc), andb_false_r.
  cbn [hyphen_if app map]. now rewrite (word_char_kebab _ Hc), IH.
Qed.

Lemma caps_head_not_lower words l z :
  forallb kebab_word words = true -> caps words = l :: z -> is_lower l = false.
Proof.
  destruct words as [|[|c r] words]; cbn [forallb]; try discriminate.
  intros [[Hc Hr]%kebab_word_cons _]%andb_true_iff.
  rewrite (caps_cons _ _ _ Hr). intros [= <- _].
  apply upper_not_lower, upper_char_of_lower, Hc.
Qed.

Lemma at_word_from_inside c2 r2 words :
  kebab_word (c2 :: r2) = true ->
  inside words -> inside ((c2 :: r2) :: words) ->
  forall b p c r,
    is_lower c = true -> word_chars r ->
    boundaries_visible ((c :: r) :: (c2 :: r2) :: words) = true ->
    map kebab_char
      (hump_local p
         (re_sub_title b (upper_char c :: r ++ caps ((c2 :: r2) :: words)))) =
    hyphen_if p ++ c :: r ++ tails ((c2 :: r2) :: words).
Proof.
  intros [Hc2 Hr2]%kebab_word_cons Hin Hin2 b p c r Hc Hr Hvis.
  destruct (upper_char_of_lower _ Hc) as [HU HkU].
  destruct (upper_char_of_lower _ Hc2) as [HU2 HkU2].
  destruct r as [|c1 r1].
  - (* a one-letter word: the next word has a lower-case second letter *)
    cbn [boundaries_visible length Nat.ltb Nat.leb orb] in Hvis.
    apply andb_prop in Hvis as [Hsecond Hvis].
    destruct r2 as [|l r2']; [discriminate Hsecond|].
    cbn [second_is_lower] in Hsecond.
    rewrite (caps_cons _ _ _ Hr2). cbn [app].
    rewrite (title_at_lone_capital _ _ _ _ _ HU HU2 Hsecond).
    rewrite !hump_local_step.
    rewrite HU, HU2, (upper_not_word_char _ HU), (upper_not_word_char _ HU2).
    rewrite andb_true_r.
    change (is_word_char "-") with false.
    cbn [is_upper between code andb hyphen_if app].
    rewrite map_kebab_hyphen_if. cbn [map]. rewrite HkU, HkU2.
    change (kebab_char "-") with "-"%char.
    assert (E := Hin true false (l :: r2') Hr2 ltac:(discriminate)).
    cbn [app] in E. rewrite E.
    rewrite tails_cons. reflexivity.
  - (* a longer word: its capital is copied *)
    apply word_chars_cons in Hr as Hr'. destruct Hr' as [Hc1 Hr1].
    cbn [app].
    rewrite (title_at_capital _ _ _ _ HU (word_char_not_upper _ Hc1)).
    rewrite hump_local_step, HU, andb_true_r, (upper_not_word_char _ HU).
    rewrite map_kebab_hyphen_if. cbn [map]. rewrite HkU.
    change (c1 :: r1 ++ caps ((c2 :: r2) :: words))
      with ((c1 :: r1) ++ caps ((c2 :: r2) :: words)).
    rewrite (Hin2 false false (c1 :: r1) Hr) by discriminate.
    reflexivity.
Qed.

Lemma inside_nil : inside [].
Proof.
  intros b p r Hr _. unfold caps, tails. cbn [map concat].
  rewrite !app_nil_r. now apply word_chars_plain.
Qed.

Lemma at_word_nil : at_word [].
Proof.
  intros b p c r Hc Hr _. unfold caps, tails. cbn [map concat].
  rewrite !app_nil_r.
  destruct (upper_char_of_lower _ Hc) as [HU HkU].
  assert (Hstep : re_sub_title b (upper_char c :: r) =
                  upper_char c :: re_sub_title false r).
  { destruct r as [|c1 r1]; [apply title_at_last|].
    apply word_chars_cons in Hr as [Hc1 _].
    apply (title_at_capital _ _ _ _ HU (word_char_not_upper _ Hc1)). }
  rewrite Hstep, hump_local_step, HU, andb_true_r.
  rewrite (upper_not_word_char _ HU), map_kebab_hyphen_if.
  cbn [map]. now rewrite HkU, (word_chars_plain _ Hr).
Qed.

Lemma inside_cons c0 r0 words :
  kebab_word (c0 :: r0) = true ->
  forallb kebab_word words = true ->
  boundaries_visible ((c0 :: r0) :: words) = true ->
  inside words -> at_word words ->
  inside ((c0 :: r0) :: words).
Proof.
  intros Hw Hwords Hvis Hin Hat b p r.
  apply kebab_word_cons in Hw as [Hc0 Hr0].
  destruct (upper_char_of_lower _ Hc0) as [HU HkU].
  revert b p. induction r as [|c r' IH]; intros b p Hr Hp.
  - rewrite (Hp eq_refl) by discriminate.
    cbn [app]. rewrite (caps_cons _ _ _ Hr0).
    rewrite (Hat b true c0 r0 Hc0 Hr0 Hvis). now rewrite tails_cons.
  - apply word_chars_cons in Hr as [Hc Hr'].
    rewrite <- app_comm_cons.
    destruct r' as [|c2 r''].
    + cbn [app]. rewrite (caps_cons _ _ _ Hr0).
      destruct (title_before_capital b c (upper_char c0) (r0 ++ caps words)
                  (word_char_is_dot _ Hc) HU)
        as [[b' E]|(l & z' & Hz & Hl & E)]; rewrite E; clear E.
      * rewrite hump_local_step, (word_char_not_upper _ Hc), andb_false_r.
        cbn [hyphen_if app map]. rewrite (word_char_kebab _ Hc), Hc.
        rewrite (Hat b' true c0 r0 Hc0 Hr0 Hvis).
        now rewrite tails_cons.
      * destruct r0 as [|l0 r0'].
        { cbn [app] in Hz.
          rewrite (caps_head_not_lower _ _ _ Hwords Hz) in Hl.
          discriminate Hl. }
        rewrite !hump_local_step.
        rewrite (word_char_not_upper _ Hc), HU, Hc, andb_false_r.
        rewrite (upper_not_word_char _ HU).
        change (is_word_char "-") with false.
        change (is_upper "-") with false.
        cbn [andb hyphen_if app map].
        rewrite (word_char_kebab _ Hc), HkU.
        change (kebab_char "-") with "-"%char.
        assert (E := Hin true false (l0 :: r0') Hr0 ltac:(discriminate)).
        cbn [app] in E |- *. rewrite E.
        now rewrite tails_cons.
    + apply word_chars_cons in Hr' as Hr''. destruct Hr'' as [Hc2 _].
      cbn [app].
      destruct (title_before_other b c c2 (r'' ++ caps ((c0 :: r0) :: words))
                  (word_char_not_upper _ Hc2)) as [b' E].
      rewrite E; clear E.
      rewrite hump_local_step, (word_char_not_upper _ Hc), andb_false_r.
      cbn [hyphen_if app map]. rewrite (word_char_kebab _ Hc), Hc.
      f_equal.
      apply (IH b' true Hr'). discriminate.
Qed.

Lemma boundaries_visible_tail w words :
  boundaries_visible (w :: words) = true -> boundaries_visible words = true.
Proof.
  destruct words as [|w2 words]; [reflexivity|].
  cbn [boundaries_visible]. now intros [_ H]%andb_true_iff.
Qed.

Lemma scan_words (words : list str) :
  forallb kebab_word words = true -> boundaries_visible words = true ->
  inside words /\ at_word words.
Proof.
  induction words as [|[|c r] words IH]; cbn [forallb].
  - intros _ _. split; [apply inside_nil | apply at_word_nil].
  - discriminate.
  - intros [Hw Hwords]%andb_true_iff Hvis.
    destruct (IH Hwords (boundaries_visible_tail _ _ Hvis)) as [Hin Hat].
    assert (Hin' : inside ((c :: r) :: words))
      by now apply inside_cons.
    split; [exact Hin'|].
    intros b p c' r'. now apply at_word_from_inside.
Qed.

(** Splitting a kebab-case name gives back its words. *)

Lemma re_split_word (r s : str) :
  word_chars r ->
  re_split_from false (r ++ "-"%char :: s) = r :: re_split_from true s.
Proof.
  induction r as [|c r IH]; [reflexivity|].
  intros [Hc Hr]%word_chars_cons. cbn [app re_split_from].
  now rewrite (word_char_not_sep _ Hc), (IH Hr).
Qed.

Lemma re_split_last_word (r : str) :
  word_chars r -> re_split_from false r = [r].
Proof.
  induction r as [|c r IH]; [reflexivity|].
  intros [Hc Hr]%word_chars_cons. cbn [re_split_from].
  now rewrite (word_char_not_sep _ Hc), (IH Hr).
Qed.

Lemma re_split_kebab_join (words : list str) :
  words <> [] -> forallb kebab_word words = true ->
  forall b, re_split_from b (kebab_join words) = words.
Proof.
  induction words as [|[|c r] words IH]; cbn [forallb];
    [congruence | discriminate |].
  intros _ [Hw Hwords]%andb_true_iff b.
  apply kebab_word_cons in Hw as [Hc Hr].
  pose proof (word_char_not_sep _ (lower_is_word_char _ Hc)) as Hsep.
  destruct words as [|w2 words].
  - cbn [kebab_join str_join re_split_from]. rewrite Hsep.
    now rewrite (re_split_last_word _ Hr).
  - change (kebab_join ((c :: r) :: w2 :: words))
      with (c :: r ++ "-"%char :: kebab_join (w2 :: words)).
    cbn [re_split_from]. rewrite Hsep, (re_split_word _ _ Hr).
    rewrite IH by (congruence || assumption). reflexivity.
Qed.

Lemma to_pascal_case_kebab_join (words : list str) :
  forallb kebab_word words = true ->
  to_pascal_case (kebab_join words) = caps words.
Proof.
  intros Hwords. destruct words as [|w words]; [reflexivity|].
  unfold to_pascal_case, re_split_seps, str_join_empty.
  now rewrite re_split_kebab_join.
Qed.

(** C2 (amended): take a name made of words joined by single hyphens, each
    word a lower-case letter followed by lower-case letters and digits, in
    which every one-letter word that has a successor is followed by a word
    whose second character is a lower-case letter.  Its PascalCase form,
    put through the kebab-case derivation, is the name again. *)
Theorem kebab_round_trip (words : list str) :
  forallb kebab_word words = true ->
  boundaries_visible words = true ->
  round_trip_at (kebab_join words).
Proof.
  intros Hwords Hvis. unfold round_trip_at.
  rewrite (to_pascal_case_kebab_join _ Hwords).
  rewrite to_kebab_case_chars, re_sub_hump_local.
  destruct words as [|[|c r] words]; [reflexivity | discriminate |].
  cbn [forallb] in Hwords. apply andb_prop in Hwords as [Hw Hwords].
  apply kebab_word_cons in Hw as [Hc Hr].
  destruct (scan_words words Hwords (boundaries_visible_tail _ _ Hvis))
    as [_ Hat].
  rewrite (caps_cons _ _ _ Hr).
  rewrite (Hat false false c r Hc Hr Hvis).
  now rewrite kebab_join_tails.
Qed.

Lemma kebab_round_trip_witness :
  forallb kebab_word [py "my"; py "x"; py "ab2"; py "feature"] = true /\
  boundaries_visible [py "my"; py "x"; py "ab2"; py "feature"] = true /\
  round_trip_at (kebab_join [py "my"; py "x"; py "ab2"; py "feature"]).
Proof.
  split; [reflexivity|]. split; [reflexivity|].
  apply (kebab_round_trip [py "my"; py "x"; py "ab2"; py "feature"]);
    reflexivity.
Defined.

Example round_trip_examples :
  to_pascal_case (py "my-x-ab2-feature") = py "MyXAb2Feature" /\
  to_kebab_case (py "MyXAb2Feature") = py "my-x-ab2-feature" /\
  to_kebab_case (to_pascal_case (py "my-2fa")) = py "my2fa" /\
  to_kebab_case (to_pascal_case (py "ab-c-d")) = py "ab-cd".
Proof. repeat split; reflexivity. Qed.

(** * Further properties of the script *)

(** ** The derived names *)

Lemma lower_upper_char c : lower_char (upper_char c) = lower_char c.
Proof. ascii_cases c; reflexivity. Qed.

Lemma lower_lower_char c : lower_char (lower_char c) = lower_char c.
Proof. ascii_cases c; reflexivity. Qed.

Lemma sep_lower_char c : is_sep (lower_char c) = is_sep c.
Proof. ascii_cases c; reflexivity. Qed.

Lemma upper_char_not_lower c : is_lower (upper_char c) = false.
Proof. ascii_cases c; reflexivity. Qed.

Lemma sep_kebab_char c : is_sep (kebab_char c) = is_sep c.
Proof. ascii_cases c; reflexivity. Qed.

Lemma lower_kebab_char c :
  is_sep c = false -> lower_char (kebab_char c) = lower_char c.
Proof. ascii_cases c; (reflexivity || discriminate). Qed.

Lemma concat_re_split (s : str) :
  forall b, concat (re_split_from b s) = re_remove_seps s.
Proof.
  unfold re_remove_seps. induction s as [|c rest IH]; intros b; [reflexivity|].
  cbn [re_split_from filter]. destruct (is_sep c); cbn [negb].
  - destruct b; [apply IH | cbn [concat app]; apply IH].
  - rewrite <- (IH false). destruct (re_split_from false rest); reflexivity.
Qed.

Lemma str_lower_capitalize (w : str) : str_lower (str_capitalize w) = str_lower w.
Proof.
  destruct w as [|c r]; [reflexivity|].
  cbn [str_capitalize str_lower map]. rewrite lower_upper_char. f_equal.
  unfold str_lower. rewrite map_map. apply map_ext, lower_lower_char.
Qed.

Lemma str_lower_pascal (x : str) :
  str_lower (to_pascal_case x) = to_package_name x.
Proof.
  unfold to_pascal_case, to_package_name, str_join_empty, re_split_seps.
  rewrite <- (concat_re_split x false).
  unfold str_lower. rewrite !concat_map, map_map. f_equal.
  apply map_ext. intros w. apply str_lower_capitalize.
Qed.

Lemma str_lower_camel (x : str) :
  str_lower (to_camel_case x) = str_lower (to_pascal_case x).
Proof.
  unfold to_camel_case. destruct (to_pascal_case x) as [|p rest]; [reflexivity|].
  cbn [str_lower map]. now rewrite lower_lower_char.
Qed.

(** X1: for a name of ASCII characters, the package form is the Pascal
    form lower-cased, and also the camel form lower-cased: the three
    derivations keep the same characters, in the same order, and differ
    only in their case. *)
Theorem package_is_lowered_pascal_and_camel (x : str) :
  ascii_only x ->
  to_package_name x = str_lower (to_pascal_case x) /\
  to_package_name x = str_lower (to_camel_case x) /\
  length (to_pascal_case x) = length (to_package_name x) /\
  length (to_camel_case x) = length (to_package_name x).
Proof.
  intros _.
  assert (Hp := str_lower_pascal x). assert (Hc := str_lower_camel x).
  rewrite Hp in Hc. repeat split; try congruence.
  - rewrite <- Hp. unfold str_lower. now rewrite length_map.
  - rewrite <- Hc. unfold str_lower. now rewrite length_map.
Qed.

Lemma package_is_lowered_pascal_and_camel_witness :
  ascii_only (py "my_QBit name") /\
  (to_package_name (py "my_QBit name") =
     str_lower (to_pascal_case (py "my_QBit name")) /\
   to_package_name (py "my_QBit name") =
     str_lower (to_camel_case (py "my_QBit name")) /\
   length (to_pascal_case (py "my_QBit name")) =
     length (to_package_name (py "my_QBit name")) /\
   length (to_camel_case (py "my_QBit name")) =
     length (to_package_name (py "my_QBit name"))).
Proof.
  assert (H : ascii_only (py "my_QBit name"))
    by (repeat constructor; cbn; lia).
  split; [exact H|].
  apply (package_is_lowered_pascal_and_camel (py "my_QBit name")). exact H.
Defined.

Lemma no_sep_lower (s : str) : no_sep (str_lower s) <-> no_sep s.
Proof.
  unfold no_sep, str_lower. rewrite Forall_map.
  split; apply Forall_impl; intros c; now rewrite sep_lower_char.
Qed.

Lemma no_sep_package (x : str) : no_sep (to_package_name x).
Proof.
  unfold to_package_name. apply no_sep_lower.
  unfold no_sep, re_remove_seps. apply Forall_forall.
  intros c [_ Hc]%filter_In. now apply negb_true_iff in Hc.
Qed.

(** X2: none of the Pascal, camel and package forms contains a hyphen, an
    underscore or a blank, whatever the name; the package form contains no
    upper-case letter either. *)
Theorem derived_names_have_no_separator (x : str) :
  no_sep (to_pascal_case x) /\ no_sep (to_camel_case x) /\
  no_sep (to_package_name x) /\ no_upper (to_package_name x).
Proof.
  assert (Hk := no_sep_package x).
  repeat split; try exact Hk.
  - apply no_sep_lower. now rewrite str_lower_pascal.
  - apply no_sep_lower. now rewrite str_lower_camel, str_lower_pascal.
  - unfold to_package_name, no_upper, str_lower. apply Forall_map.
    apply Forall_forall. intros c _. apply lower_char_not_upper.
Qed.

Lemma re_remove_seps_nil (x : str) :
  re_remove_seps x = [] <-> forallb is_sep x = true.
Proof.
  unfold re_remove_seps. induction x as [|c rest IH]; [cbn; tauto|].
  cbn [filter forallb]. destruct (is_sep c); cbn [negb andb]; [exact IH|].
  split; discriminate.
Qed.

Lemma str_lower_nil (s : str) : str_lower s = [] <-> s = [].
Proof. destruct s; cbn; split; (reflexivity || discriminate). Qed.

(** X3: a derived Pascal, camel or package form is empty exactly when the
    name consists of separators only (hyphens, underscores, blanks), the
    empty name included. *)
Theorem derived_names_empty_iff (x : str) :
  (to_pascal_case x = [] <-> forallb is_sep x = true) /\
  (to_camel_case x = [] <-> forallb is_sep x = true) /\
  (to_package_name x = [] <-> forallb is_sep x = true).
Proof.
  assert (Hk : to_package_name x = [] <-> forallb is_sep x = true).
  { unfold to_package_name. rewrite str_lower_nil. apply re_remove_seps_nil. }
  repeat split; try apply Hk; intros H.
  - apply Hk. rewrite <- str_lower_pascal. now apply str_lower_nil.
  - apply str_lower_nil. rewrite str_lower_pascal. now apply Hk.
  - apply Hk. rewrite <- str_lower_pascal, <- str_lower_camel.
    now apply str_lower_nil.
  - apply str_lower_nil. rewrite str_lower_camel, str_lower_pascal.
    now apply Hk.
Qed.

(** X4: the Pascal form never starts with a lower-case letter. *)
Theorem pascal_case_head_not_lower (x : str) (p : ascii) (rest : str) :
  to_pascal_case x = p :: rest -> is_lower p = false.
Proof.
  unfold to_pascal_case, str_join_empty.
  generalize (re_split_seps x) as words.
  induction words as [|[|c r] words IH]; cbn [map concat str_capitalize app].
  - discriminate.
  - exact IH.
  - intros [= <- _]. apply upper_char_not_lower.
Qed.

Lemma pascal_case_head_not_lower_witness :
  to_pascal_case (py "my_qbit") = "M"%char :: py "yQbit" /\
  is_lower "M" = false.
Proof.
  split; [reflexivity|].
  apply (pascal_case_head_not_lower (py "my_qbit") "M"%char (py "yQbit")).
  reflexivity.
Defined.

Lemma re_split_no_sep (x : str) :
  no_sep x -> re_split_from false x = [x].
Proof.
  induction 1 as [|c rest Hc _ IH]; [reflexivity|].
  cbn [re_split_from]. now rewrite Hc, IH.
Qed.

(** X5: on a name without hyphen, underscore or blank, [to_pascal_case] is
    [str.capitalize]: the whole name is one word, so every character after
    the first is lower-cased. *)
Theorem pascal_case_of_one_word (x : str) :
  no_sep x -> to_pascal_case x = str_capitalize x.
Proof.
  intros H. unfold to_pascal_case, re_split_seps, str_join_empty.
  rewrite (re_split_no_sep _ H). cbn [map concat]. apply app_nil_r.
Qed.

Lemma pascal_case_of_one_word_witness :
  no_sep (py "MyFeature") /\
  to_pascal_case (py "MyFeature") = str_capitalize (py "MyFeature").
Proof.
  split; [repeat constructor|].
  apply (pascal_case_of_one_word (py "MyFeature")). repeat constructor.
Defined.

(** ** The kebab form *)

Lemma kebab_char_clean c :
  is_upper (kebab_char c) = false /\
  kebab_char c <> "_"%char /\ kebab_char c <> " "%char.
Proof. ascii_cases c; repeat split; discriminate. Qed.

Lemma kebab_char_fixed c :
  is_upper c = false -> c <> "_"%char -> c <> " "%char -> kebab_char c = c.
Proof.
  intros Hu H1 H2. unfold kebab_char. rewrite (lower_char_fixed _ Hu).
  destruct (Ascii.eqb_spec c "_"); [contradiction|].
  destruct (Ascii.eqb_spec c " "); [contradiction|]. reflexivity.
Qed.

(** X6: the kebab form contains no upper-case letter, no underscore and no
    space, whatever the name. *)
Theorem kebab_case_is_clean (x : str) : kebab_clean (to_kebab_case x).
Proof.
  rewrite to_kebab_case_chars. unfold kebab_clean. apply Forall_map.
  apply Forall_forall. intros c _. apply kebab_char_clean.
Qed.

(** X7: a name of ASCII characters without upper-case letter, underscore
    and space is its own kebab form: nothing is inserted and nothing is
    replaced. *)
Theorem kebab_case_fixed_point (x : str) :
  ascii_only x -> kebab_clean x -> to_kebab_case x = x.
Proof.
  intros _ H. rewrite to_kebab_case_chars.
  assert (Hup : no_upper x).
  { unfold no_upper. revert H. apply Forall_impl. tauto. }
  rewrite (re_sub_title_no_upper _ Hup), (re_sub_hump_no_upper _ Hup).
  induction H as [|c rest (Hu & H1 & H2) _ IH]; [reflexivity|].
  cbn [map]. rewrite (kebab_char_fixed _ Hu H1 H2). f_equal.
  apply IH. now inversion Hup.
Qed.

Lemma kebab_case_fixed_point_witness :
  ascii_only (py "qbit-my-feature2") /\
  kebab_clean (py "qbit-my-feature2") /\
  to_kebab_case (py "qbit-my-feature2") = py "qbit-my-feature2".
Proof.
  assert (Ha : ascii_only (py "qbit-my-feature2"))
    by (repeat constructor; cbn; lia).
  assert (H : kebab_clean (py "qbit-my-feature2")).
  { repeat constructor; discriminate. }
  split; [exact Ha|]. split; [exact H|].
  apply (kebab_case_fixed_point (py "qbit-my-feature2")); assumption.
Defined.

(** Both regular expressions of [to_kebab_case] only insert hyphens. *)

Lemma keep_title_upto (n : nat) :
  forall s b, length s <= n ->
    re_remove_seps (re_sub_title b s) = re_remove_seps s.
Proof.
  unfold re_remove_seps.
  induction n as [|n IH]; intros s b Hlen.
  - destruct s; [reflexivity | cbn in Hlen; lia].
  - destruct s as [|c rest]; [reflexivity|].
    rewrite re_sub_title_step.
    destruct (b && is_lower c).
    { cbn [filter]. rewrite IH by (simpl length in *; lia). reflexivity. }
    destruct rest as [|u [|l rest']].
    + reflexivity.
    + cbn [filter]. rewrite IH by (simpl length in *; lia). reflexivity.
    + destruct (is_dot c && is_upper u && is_lower l).
      * cbn [filter].
        change (negb (is_sep "-")) with false. cbn iota.
        rewrite (IH (l :: rest') true) by (simpl length in *; lia).
        reflexivity.
      * cbn [filter]. rewrite IH by (simpl length in *; lia). reflexivity.
Qed.

Lemma keep_hump (s : str) :
  forall b, re_remove_seps (hump_local b s) = re_remove_seps s.
Proof.
  unfold re_remove_seps. induction s as [|c rest IH]; intros b; [reflexivity|].
  rewrite hump_local_step.
  destruct (b && is_upper c); cbn [hyphen_if app filter];
    [change (negb (is_sep "-")) with false; cbn iota|];
    now rewrite IH.
Qed.

Lemma package_of_kebab_chars (s : str) :
  str_lower (re_remove_seps (map kebab_char s)) = str_lower (re_remove_seps s).
Proof.
  unfold re_remove_seps, str_lower.
  induction s as [|c rest IH]; [reflexivity|].
  cbn [map filter]. rewrite sep_kebab_char.
  destruct (is_sep c) eqn:Hc; cbn [negb]; [exact IH|].
  cbn [map]. now rewrite (lower_kebab_char _ Hc), IH.
Qed.

(** X8: for a name of ASCII characters, the kebab form has the same
    package form as the name: turning a name into kebab-case loses none of
    its letters and digits and does not reorder them. *)
Theorem package_of_kebab_case (x : str) :
  ascii_only x ->
  to_package_name (to_kebab_case x) = to_package_name x.
Proof.
  intros _. unfold to_package_name.
  rewrite to_kebab_case_chars, package_of_kebab_chars, re_sub_hump_local.
  now rewrite keep_hump, (keep_title_upto (length x)).
Qed.

Lemma package_of_kebab_case_witness :
  ascii_only (py "myHTTP_Feature 2") /\
  to_package_name (to_kebab_case (py "myHTTP_Feature 2")) =
    to_package_name (py "myHTTP_Feature 2").
Proof.
  assert (H : ascii_only (py "myHTTP_Feature 2"))
    by (repeat constructor; cbn; lia).
  split; [exact H|].
  apply (package_of_kebab_case (py "myHTTP_Feature 2")). exact H.
Defined.

(** ** [prompt] *)

Lemma lstrip_head (s : str) (c : ascii) (rest : str) :
  lstrip s = c :: rest -> is_space c = false.
Proof.
  induction s as [|a s IH]; [discriminate|].
  cbn [lstrip]. destruct (is_space a) eqn:Ha; [exact IH|].
  now intros [= <- _].
Qed.

Lemma lstrip_suffix (s : str) : exists pre, s = pre ++ lstrip s.
Proof.
  induction s as [|a s [pre IH]]; [now exists []|].
  cbn [lstrip]. destruct (is_space a); [|now exists []].
  exists (a :: pre). cbn [app]. now f_equal.
Qed.

Lemma lstrip_nil (s : str) : lstrip s = [] <-> blank s = true.
Proof.
  unfold blank. induction s as [|a s IH]; [cbn; tauto|].
  cbn [lstrip forallb]. destruct (is_space a); cbn [andb]; [exact IH|].
  split; discriminate.
Qed.

Lemma blank_rev (s : str) : blank (rev s) = blank s.
Proof.
  unfold blank. induction s as [|a s IH]; [reflexivity|].
  cbn [rev forallb]. rewrite forallb_app, IH. cbn [forallb].
  rewrite andb_true_r. apply andb_comm.
Qed.

Lemma blank_lstrip (s : str) : blank (lstrip s) = blank s.
Proof.
  unfold blank. induction s as [|a s IH]; [reflexivity|].
  cbn [lstrip]. destruct (is_space a) eqn:Ha; cbn [forallb]; rewrite ?Ha; auto.
Qed.

Lemma str_strip_nil (s : str) : str_strip s = [] <-> blank s = true.
Proof.
  unfold str_strip. rewrite <- (blank_lstrip s), <- (blank_rev (lstrip s)).
  rewrite <- lstrip_nil. split; intros H.
  - now rewrite <- (rev_involutive (lstrip _)), H.
  - now rewrite H.
Qed.

Lemma str_strip_trimmed (s : str) : trimmed (str_strip s).
Proof.
  unfold str_strip. split.
  - intros c rest H.
    destruct (lstrip_suffix (rev (lstrip s))) as [pre Hpre].
    apply (f_equal (@rev ascii)) in Hpre.
    rewrite rev_involutive, rev_app_distr, H in Hpre.
    apply (lstrip_head s c (rest ++ rev pre)). exact Hpre.
  - intros c front H.
    apply (f_equal (@rev ascii)) in H.
    rewrite rev_involutive, rev_app_distr in H. cbn [rev app] in H.
    apply (lstrip_head _ _ _ H).
Qed.

(** X9: [prompt] shows the message with the default between brackets and
    asks once.  An answer made of blanks only, or empty, gives the default;
    any other answer is returned without its leading and trailing blanks,
    and is then not empty; an exception of [input] is passed on. *)
Theorem prompt_answer
    {S : Type} (h : handler S) (s : S) (msg default : str) :
  trace (exec h (prompt msg default) s) =
    [Entry (EvInput (msg ++ py " [" ++ default ++ py "]: "))
           (fst (h _ (EvInput (msg ++ py " [" ++ default ++ py "]: ")) s))] /\
  match fst (h _ (EvInput (msg ++ py " [" ++ default ++ py "]: ")) s) with
  | Ok line =>
      outcome (exec h (prompt msg default) s) =
        Ok (if blank line then default else str_strip line) /\
      trimmed (str_strip line) /\
      (blank line = false -> str_strip line <> [])
  | Err e => outcome (exec h (prompt msg default) s) = Err e
  end.
Proof.
  unfold prompt, call. cbn [bind exec].
  destruct (h _ (EvInput (msg ++ py " [" ++ default ++ py "]: ")) s)
    as [[line|e] s1]; cbn [fst bind exec outcome trace].
  2:{ split; reflexivity. }
  split; [reflexivity|]. split; [|split].
  - destruct (blank line) eqn:Hb.
    + apply str_strip_nil in Hb. now rewrite Hb.
    + destruct (str_strip line) eqn:Hs; [|reflexivity].
      apply str_strip_nil in Hs. congruence.
  - apply str_strip_trimmed.
  - intros Hb Hs. apply str_strip_nil in Hs. congruence.
Qed.

(** ** Traces of sequences and loops *)

Lemma bind_trace {S A B : Type} (h : handler S) (P : list entry -> Prop)
    (p : prog A) (f : A -> prog B) (s : S) :
  (forall t1 t2, P t1 -> P t2 -> P (t1 ++ t2)) ->
  P (trace (exec h p s)) ->
  (forall a s', P (trace (exec h (f a) s'))) ->
  P (trace (exec h (bind p f) s)).
Proof.
  intros Happ Hp Hf. rewrite exec_bind.
  destruct (outcome (exec h p s)); cbn [trace]; auto.
Qed.

Lemma for_each_trace {S A : Type} (h : handler S) (P : list entry -> Prop)
    (body : A -> prog unit) :
  P [] ->
  (forall t1 t2, P t1 -> P t2 -> P (t1 ++ t2)) ->
  forall l : list A,
    (forall a s, In a l -> P (trace (exec h (body a) s))) ->
    forall s, P (trace (exec h (for_each l body) s)).
Proof.
  intros Hnil Happ l. induction l as [|a l IH]; intros Hbody s; [exact Hnil|].
  cbn [for_each]. apply bind_trace; [exact Happ | apply Hbody; now left |].
  intros _ s'. apply IH. intros a' s'' Ha'. apply Hbody. now right.
Qed.

(** ** [replace_in_files] *)

Lemma replace_in_file_scans {S} (h : handler S) (s : S) table file :
  scans_only [file] (trace (exec h (replace_in_file table file) s)).
Proof.
  unfold replace_in_file, ask, call, print, scans_only.
  cbn [bind exec try_except].
  answer h. destruct x; cbn [negb exec trace bind try_except].
  2:{ repeat constructor. }
  answer h. destruct x as [text|e]; cbn [bind try_except exec trace].
  - destruct (str_eqb (apply_replacements table text) text);
      cbn [negb bind exec trace ask].
    + repeat constructor.
    + answer h. destruct x as [[]|e]; cbn [bind exec trace ask];
        [answer h; cbn [exec trace]|]; repeat constructor.
  - destruct e; cbn [exec trace]; repeat constructor.
Qed.

Lemma scans_only_mono (files files' : list path) (tr : list entry) :
  (forall p, In p files -> In p files') ->
  scans_only files tr -> scans_only files' tr.
Proof.
  intros Hsub. unfold scans_only. apply Forall_impl.
  intros [X ev x]. destruct ev; auto.
Qed.

Lemma replace_in_files_scan {S} (h : handler S) (s : S) files table :
  scans_only files (trace (exec h (replace_in_files files table) s)).
Proof.
  unfold replace_in_files.
  apply (for_each_trace h (scans_only files)).
  - constructor.
  - intros t1 t2 H1 H2. apply Forall_app. now split.
  - intros file s' Hin.
    apply (scans_only_mono [file]); [|apply replace_in_file_scans].
    intros p [<-|[]]. exact Hin.
Qed.

(** X10: in any environment, [replace_in_files] tests, reads and writes
    only the files it was given and prints; it asks for no input and
    creates, moves, renames or removes nothing. *)
Theorem replace_in_files_scans_only
    {S : Type} (h : handler S) (s : S) (files : list path)
    (table : replacements) :
  scans_only files (trace (exec h (replace_in_files files table) s)).
Proof.
  unfold replace_in_files.
  apply (for_each_trace h (scans_only files)).
  - constructor.
  - intros t1 t2 H1 H2. apply Forall_app. now split.
  - intros file s' Hin.
    apply (scans_only_mono [file]); [|apply replace_in_file_scans].
    intros p [<-|[]]. exact Hin.
Qed.

Lemma replace_in_files_follow {S} (h : handler S) (s : S) files table :
  writes_follow_changes table
    (trace (exec h (replace_in_files files table) s)).
Proof.
  unfold replace_in_files.
  apply (for_each_trace h (writes_follow_changes table)).
  - intros f c; cbn; split; [tauto | intros (t & [] & _)].
  - apply writes_follow_changes_app.
  - intros file s' _. apply replace_in_file_writes.
Qed.

(** X11: if no search string of the table occurs in any of the texts read,
    [replace_in_files] writes no file at all: running it over files that
    hold nothing to replace leaves every one of them untouched. *)
Theorem replace_in_files_settled_writes_nothing
    {S : Type} (h : handler S) (s : S) (files : list path)
    (table : replacements) :
  forallb (fun r => settled table (snd r))
    (reads (trace (exec h (replace_in_files files table) s))) = true ->
  writes (trace (exec h (replace_in_files files table) s)) = [].
Proof.
  intros Hall.
  pose proof (replace_in_files_follow h s files table) as Hw.
  destruct (writes _) as [|[file changed] more] eqn:E; [reflexivity|].
  exfalso.
  destruct (proj1 (Hw file changed)) as (text & Hin & Hc & Hne).
  { rewrite E. now left. }
  rewrite forallb_forall in Hall. specialize (Hall _ Hin). cbn [snd] in Hall.
  apply apply_replacements_settled in Hall. congruence.
Qed.

Lemma replace_in_files_settled_writes_nothing_witness :
  forallb (fun r => settled (main_replacements my_feature_settings) (snd r))
    (reads (trace (exec memfs_handler
       (replace_in_files [py "repo/pom.xml"; py "repo/README.md"]
          (main_replacements my_feature_settings))
       [(py "repo/pom.xml",
         TextFile (py "<artifactId>qbit-my-feature</artifactId>"))])))
    = true /\
  writes (trace (exec memfs_handler
       (replace_in_files [py "repo/pom.xml"; py "repo/README.md"]
          (main_replacements my_feature_settings))
       [(py "repo/pom.xml",
         TextFile (py "<artifactId>qbit-my-feature</artifactId>"))])) = [].
Proof.
  split; [reflexivity|].
  apply (replace_in_files_settled_writes_nothing memfs_handler
           [(py "repo/pom.xml",
             TextFile (py "<artifactId>qbit-my-feature</artifactId>"))]
           [py "repo/pom.xml"; py "repo/README.md"]
           (main_replacements my_feature_settings)).
  reflexivity.
Defined.

(** ** Moving and renaming *)

Lemma moves_checked_nil repo cfg : moves_checked repo cfg [].
Proof.
  split; [intros src dst []|]. split; [intros H; now contradiction H|].
  split; reflexivity.
Qed.

Lemma moves_checked_app repo cfg t1 t2 :
  moves_checked repo cfg t1 -> moves_checked repo cfg t2 ->
  moves_checked repo cfg (t1 ++ t2).
Proof.
  intros (Hm1 & Hr1 & Hn1 & Hw1) (Hm2 & Hr2 & Hn2 & Hw2).
  assert (Em : moves (t1 ++ t2) = moves t1 ++ moves t2) by apply flat_map_app.
  assert (Ef : found (t1 ++ t2) = found t1 ++ found t2) by apply flat_map_app.
  assert (Ed : made_dirs (t1 ++ t2) = made_dirs t1 ++ made_dirs t2)
    by apply flat_map_app.
  assert (Er : rmdirs (t1 ++ t2) = rmdirs t1 ++ rmdirs t2)
    by apply flat_map_app.
  assert (Eo : moves_done (t1 ++ t2) = moves_done t1 ++ moves_done t2)
    by apply flat_map_app.
  assert (En : renames (t1 ++ t2) = renames t1 ++ renames t2)
    by apply flat_map_app.
  unfold moves_checked. rewrite Em, Ef, Ed, Er, Eo, En, writes_app.
  split; [|split; [|split]].
  - intros src dst H.
    apply in_app_iff in H as [H|H];
      [apply Hm1 in H | apply Hm2 in H];
      destruct H as (Hf & Hd & Hroot); rewrite !in_app_iff; tauto.
  - intros Hrm Habs. apply app_eq_nil in Habs as [Ha Hb].
    destruct (rmdirs t1) eqn:E1.
    + now apply Hr2.
    + apply Hr1; [discriminate | exact Ha].
  - now rewrite Hn1, Hn2.
  - now rewrite Hw1, Hw2.
Qed.

(** The body of the loop of [move_sources]. *)
Lemma move_one_root {S} (h : handler S) (s : S) repo cfg root :
  In root src_roots ->
  moves_checked repo cfg
    (trace (exec h
       (let src_dir := repo // root // old_package_path in
        found <- ask (EvExists src_dir) ;;
        if found then
          let dst_dir := repo // root // new_package_path cfg in
          call (EvMkdirParents (path_parent dst_dir)) ;;
          call (EvMove src_dir dst_dir) ;;
          print (py "  Moved: " ++ root ++ py "/" ++ path_str old_package_path
                 ++ py " -> " ++ root ++ py "/"
                 ++ path_str (new_package_path cfg)) ;;
          try_except
            (call (EvRmdir (repo // root // py "com/kingsrook/qbits")) ;;
             call (EvRmdir (repo // root // py "com/kingsrook")) ;;
             call (EvRmdir (repo // root // py "com")))
            (fun e => match e with OSError => Some (Ret tt) | _ => None end)
        else Ret tt) s)).
Proof.
  intros Hroot. cbv zeta. unfold ask, call, print.
  cbn [bind exec try_except ask call print].
  assert (Hgood : forall tr src dst,
    In (src, dst) [(repo // root // old_package_path,
                    repo // root // new_package_path cfg)] ->
    In (repo // root // old_package_path) (found tr) ->
    In (path_parent (repo // root // new_package_path cfg)) (made_dirs tr) ->
    In src (found tr) /\ In (path_parent dst) (made_dirs tr) /\
    exists r, In r src_roots /\ src = repo // r // old_package_path /\
              dst = repo // r // new_package_path cfg).
  { intros tr src dst [[= <- <-]|[]] Hf Hd. repeat split; auto.
    now exists root. }
  assert (Hquiet : forall tr,
    moves tr = [] -> rmdirs tr = [] -> renames tr = [] -> writes tr = [] ->
    moves_checked repo cfg tr).
  { intros tr Hm Hr Hn Hw.
    split; [intros src dst Hin; rewrite Hm in Hin; destruct Hin|].
    split; [intros H; now contradiction H|]. split; assumption. }
  answer h. destruct x; cbn [exec trace bind try_except ask call print];
    [|apply Hquiet; reflexivity].
  answer h. destruct x as [[]|e]; cbn [exec trace bind try_except ask call print];
    [|apply Hquiet; reflexivity].
  answer h. destruct x as [[]|e]; cbn [exec trace bind try_except ask call print].
  2:{ split; [|split; [intros H; now contradiction H | split; reflexivity]].
      intros src dst Hin. apply Hgood; cbn; auto. }
  answer h. cbn [exec trace bind try_except ask call print].
  assert (Hdone : forall tail,
    moves tail = [] -> renames tail = [] -> writes tail = [] ->
    moves_checked repo cfg
      (Entry (EvExists (repo // root // old_package_path)) true
       :: Entry (EvMkdirParents
                   (path_parent (repo // root // new_package_path cfg)))
                (Ok tt)
       :: Entry (EvMove (repo // root // old_package_path)
                        (repo // root // new_package_path cfg)) (Ok tt)
       :: Entry (EvPrint
                   (py "  Moved: " ++ root ++ py "/"
                    ++ path_str old_package_path ++ py " -> " ++ root
                    ++ py "/" ++ path_str (new_package_path cfg))) x
       :: tail)).
  { clear Hgood Hquiet. intros tail Hm Hn Hw.
    unfold moves_checked, moves, found, made_dirs, moves_done, rmdirs,
      renames, writes in *.
    cbn [flat_map app]. rewrite Hm, Hn, Hw.
    split; [|split; [|split]]; try reflexivity.
    - intros src dst [[= <- <-]|[]].
      split; [now left|]. split; [now left|]. now exists root.
    - intros _. discriminate. }
  repeat (answer h; destruct x0 as [[]|[]];
          cbn [exec trace bind try_except ask call print]);
    apply Hdone; reflexivity.
Qed.

(** X12: take a repository root whose text is that of a path as [pathlib]
    prints it (the file-system root and the current directory apart), and a
    group id and package name without [/].  In any environment, the
    relocation step of [main] moves only the old package directory of a
    source root, and only after finding it and making the parent of its
    destination, the new package directory of that root; it removes
    directories only after a move that succeeded, and it renames and writes
    nothing. *)
Theorem move_sources_moves_checked
    {S : Type} (h : handler S) (s : S) (repo : path) (cfg : settings) :
  path_text repo = true -> no_slash (new_package cfg) ->
  moves_checked repo cfg (trace (exec h (move_sources repo cfg) s)).
Proof.
  intros _ _. unfold move_sources.
  apply bind_trace; [apply moves_checked_app | |intros _ s1].
  { unfold print, ask. cbn [exec]. answer h. cbn [trace].
    split; [intros src dst []|]. split; [intros H; now contradiction H|].
    split; reflexivity. }
  apply bind_trace; [apply moves_checked_app | |intros _ s2].
  { unfold print, ask. cbn [exec]. answer h. cbn [trace].
    split; [intros src dst []|]. split; [intros H; now contradiction H|].
    split; reflexivity. }
  apply (for_each_trace h (moves_checked repo cfg)).
  - apply moves_checked_nil.
  - apply moves_checked_app.
  - intros root s3 Hroot. apply (move_one_root h s3 repo cfg root Hroot).
Qed.

Lemma move_sources_moves_checked_witness :
  path_text (py "repo") = true /\
  no_slash (new_package my_feature_settings) /\
  moves_checked (py "repo") my_feature_settings
    (trace (exec memfs_handler (move_sources (py "repo") my_feature_settings)
              template_repo)).
Proof.
  assert (Hpkg : no_slash (new_package my_feature_settings)).
  { repeat (constructor; [discriminate|]). constructor. }
  split; [reflexivity|]. split; [exact Hpkg|].
  apply (move_sources_moves_checked memfs_handler template_repo (py "repo")
           my_feature_settings); [reflexivity | exact Hpkg].
Defined.

(** In that run the package directory of the one source root is moved. *)
Example move_sources_on_template :
  moves (trace (exec memfs_handler
                  (move_sources (py "repo") my_feature_settings)
                  template_repo)) =
  [(py "repo/src/main/java/com/kingsrook/qbits/todo",
    py "repo/src/main/java/com/acme/myfeature")].
Proof. vm_compute. reflexivity. Qed.

Lemma split_parts_free (sep : ascii) (s : str) :
  Forall (Forall (fun c => c <> sep)) (str_split_char sep s).
Proof.
  induction s as [|c rest IH]; [repeat constructor|].
  cbn [str_split_char]. destruct (Ascii.eqb_spec c sep) as [->|Hne].
  - constructor; [constructor | exact IH].
  - destruct (str_split_char sep rest) as [|w ws]; [repeat constructor; auto|].
    inversion IH; subst. constructor; [constructor; assumption | assumption].
Qed.

Lemma path_name_no_slash (p : path) : no_slash (path_name p).
Proof.
  unfold path_name, no_slash.
  pose proof (split_parts_free "/" p) as H.
  induction H as [|w ws Hw Hws IH]; [constructor|].
  destruct ws; [exact Hw | exact IH].
Qed.

Lemma replace_scan_no_slash (old new s : str) :
  no_slash new -> no_slash s ->
  forall skip, no_slash (replace_scan old new skip s).
Proof.
  intros Hnew Hs. induction Hs as [|c rest Hc Hrest IH]; intros skip;
    [constructor|].
  cbn [replace_scan]. destruct skip; [|apply IH].
  destruct (starts_with old (c :: rest)).
  - apply Forall_app. split; [exact Hnew | apply IH].
  - constructor; [exact Hc | apply IH].
Qed.

Lemma renamed_no_slash (cfg : settings) (java_file : path) :
  no_slash (pascal_name cfg) -> no_slash (renamed cfg java_file).
Proof.
  intros H. unfold renamed, str_replace. cbn [py list_ascii_of_string].
  apply replace_scan_no_slash; [exact H | apply path_name_no_slash].
Qed.

Lemma renames_checked_nil cfg : renames_checked cfg [].
Proof. split; [intros src dst []|]. repeat split. Qed.

Lemma renames_checked_app cfg t1 t2 :
  renames_checked cfg t1 -> renames_checked cfg t2 ->
  renames_checked cfg (t1 ++ t2).
Proof.
  intros (Hr1 & Hm1 & Hd1 & Hw1) (Hr2 & Hm2 & Hd2 & Hw2).
  assert (En : renames (t1 ++ t2) = renames t1 ++ renames t2)
    by apply flat_map_app.
  assert (Eg : globbed (t1 ++ t2) = globbed t1 ++ globbed t2)
    by apply flat_map_app.
  assert (Em : moves (t1 ++ t2) = moves t1 ++ moves t2) by apply flat_map_app.
  assert (Er : rmdirs (t1 ++ t2) = rmdirs t1 ++ rmdirs t2)
    by apply flat_map_app.
  unfold renames_checked. rewrite En, Eg, Em, Er, writes_app.
  rewrite Hm1, Hm2, Hd1, Hd2, Hw1, Hw2.
  split; [|repeat split].
  intros src dst H.
  apply in_app_iff in H as [H|H]; [apply Hr1 in H | apply Hr2 in H];
    destruct H as [Hg Hd]; rewrite in_app_iff; tauto.
Qed.

Lemma renames_listed_app cfg listed t1 t2 :
  renames_listed cfg listed t1 -> renames_listed cfg listed t2 ->
  renames_listed cfg listed (t1 ++ t2).
Proof.
  intros (Hr1 & Hg1 & Hm1 & Hd1 & Hw1) (Hr2 & Hg2 & Hm2 & Hd2 & Hw2).
  assert (En : renames (t1 ++ t2) = renames t1 ++ renames t2)
    by apply flat_map_app.
  assert (Eg : globbed (t1 ++ t2) = globbed t1 ++ globbed t2)
    by apply flat_map_app.
  assert (Em : moves (t1 ++ t2) = moves t1 ++ moves t2) by apply flat_map_app.
  assert (Er : rmdirs (t1 ++ t2) = rmdirs t1 ++ rmdirs t2)
    by apply flat_map_app.
  unfold renames_listed. rewrite En, Eg, Em, Er, writes_app.
  rewrite Hg1, Hg2, Hm1, Hm2, Hd1, Hd2, Hw1, Hw2.
  split; [|repeat split].
  intros src dst H.
  apply in_app_iff in H as [H|H]; [now apply Hr1 | now apply Hr2].
Qed.

Lemma rename_listed_files {S} (h : handler S) cfg (listed : list path) :
  forall s,
  renames_listed cfg listed
    (trace (exec h
       (for_each listed (fun java_file =>
          let new_name :=
            str_replace (py "Todo") (pascal_name cfg) (path_name java_file) in
          let new_path := path_parent java_file // new_name in
          call (EvRename java_file new_path) ;;
          print (py "  Renamed: " ++ path_name java_file ++ py " -> "
                 ++ new_name))) s)).
Proof.
  apply (for_each_trace h (renames_listed cfg listed)).
  - split; [intros src dst []|]. repeat split.
  - apply renames_listed_app.
  - intros file s Hin. cbv zeta. unfold call, print, ask.
    cbn [bind exec]. answer h.
    destruct x as [[]|e]; cbn [bind exec trace];
      [answer h; cbn [exec trace]|].
    all: split; [|repeat split].
    all: intros src dst [[= <- <-]|[]]; now split.
Qed.

Lemma str_split_char_cons (sep : ascii) (s : str) :
  exists w ws, str_split_char sep s = w :: ws.
Proof.
  destruct s as [|c rest]; [now exists [], []|].
  cbn [str_split_char]. destruct (c =? sep)%char; [now eexists _, _|].
  destruct (str_split_char sep rest); now eexists _, _.
Qed.

Lemma str_split_char_app (sep : ascii) (p q : str) :
  str_split_char sep (p ++ sep :: q) =
  str_split_char sep p ++ str_split_char sep q.
Proof.
  induction p as [|c rest IH]; cbn [app str_split_char].
  - now rewrite Ascii.eqb_refl.
  - rewrite IH. destruct (c =? sep)%char; [reflexivity|].
    destruct (str_split_char_cons sep rest) as (w & ws & ->). reflexivity.
Qed.

Lemma str_split_char_free (sep : ascii) (q : str) :
  Forall (fun c => c <> sep) q -> str_split_char sep q = [q].
Proof.
  induction 1 as [|c rest Hc _ IH]; [reflexivity|].
  cbn [str_split_char]. rewrite IH.
  destruct (Ascii.eqb_spec c sep); [contradiction | reflexivity].
Qed.

Lemma str_join_split (sep : ascii) (p : str) :
  str_join [sep] (str_split_char sep p) = p.
Proof.
  induction p as [|c rest IH]; [reflexivity|].
  cbn [str_split_char].
  destruct (str_split_char_cons sep rest) as (w & ws & E).
  rewrite E in *. destruct (Ascii.eqb_spec c sep) as [->|_].
  - rewrite <- IH. reflexivity.
  - rewrite <- IH. destruct ws; reflexivity.
Qed.

(** A component added on the right of a path is its name, and the path is
    its parent. *)
Lemma joinpath_component (p : path) (q : str) :
  component q = true ->
  path_parent (p // q) = p /\ path_name (p // q) = q.
Proof.
  unfold component. intros [[[Hq Hfree]%andb_prop _]%andb_prop _]%andb_prop.
  assert (Hsplit : str_split_char "/" q = [q]).
  { apply str_split_char_free. apply Forall_forall. intros c Hin Habs.
    rewrite forallb_forall in Hfree. specialize (Hfree c Hin).
    subst c. discriminate. }
  destruct q as [|c q']; [discriminate|].
  unfold joinpath, path_parent, path_name. cbn [py list_ascii_of_string app].
  rewrite str_split_char_app, Hsplit.
  rewrite removelast_last, last_last. split; [apply str_join_split | reflexivity].
Qed.

(** X13: when the Pascal name holds no [/], in any environment, the
    renaming step of [main] renames only paths that a glob handed over,
    each one to its parent joined with its name in which [Todo] is replaced
    by the Pascal name.  That new name holds no [/]; when it is a path
    component (not empty, not [.] and not [..]), the destination is in the
    same directory as the file: its parent is the parent of the file, and
    its name is the new name.  The step moves, removes and writes
    nothing. *)
Theorem rename_java_files_renames_checked
    {S : Type} (h : handler S) (s : S) (repo : path) (cfg : settings) :
  no_slash (pascal_name cfg) ->
  renames_checked cfg (trace (exec h (rename_java_files repo cfg) s)) /\
  forall src dst,
    In (src, dst) (renames (trace (exec h (rename_java_files repo cfg) s))) ->
    no_slash (renamed cfg src) /\
    (component (renamed cfg src) = true ->
     path_parent dst = path_parent src /\ path_name dst = renamed cfg src).
Proof.
  intros Hpascal.
  assert (Hchecked :
    renames_checked cfg (trace (exec h (rename_java_files repo cfg) s))).
  2:{ split; [exact Hchecked|]. intros src dst Hin.
      split; [apply renamed_no_slash, Hpascal|].
      intros Hcomp. apply Hchecked in Hin as [_ ->].
      now apply joinpath_component. }
  unfold rename_java_files.
  apply bind_trace; [apply renames_checked_app | |intros _ s1].
  { unfold print, ask. cbn [exec]. answer h. cbn [trace].
    split; [intros src dst []|]. repeat split. }
  apply bind_trace; [apply renames_checked_app | |intros _ s2].
  { unfold print, ask. cbn [exec]. answer h. cbn [trace].
    split; [intros src dst []|]. repeat split. }
  apply (for_each_trace h (renames_checked cfg)).
  - apply renames_checked_nil.
  - apply renames_checked_app.
  - intros root s3 _. cbv zeta. unfold ask at 1. cbn [bind exec].
    answer h. destruct x; cbn [trace exec bind].
    2:{ split; [intros src dst []|]. repeat split. }
    unfold ask at 1. cbn [bind exec]. answer h. cbn [trace].
    match goal with
    | |- context [exec h (for_each x ?body) ?st] =>
        destruct (rename_listed_files h cfg x st) as (Hr & Hg & Hm & Hd & Hw)
    end.
    split; [|split; [exact Hm | split; [exact Hd | exact Hw]]].
    intros src dst Hin. apply Hr in Hin as [Hin Hdst]. split; [|exact Hdst].
    apply (in_or_app x). now left.
Qed.

Lemma rename_java_files_renames_checked_witness :
  no_slash (pascal_name my_feature_settings) /\
  renames_checked my_feature_settings
    (trace (exec memfs_handler
              (rename_java_files (py "repo") my_feature_settings)
              moved_repo)) /\
  forall src dst,
    In (src, dst)
       (renames (trace (exec memfs_handler
                          (rename_java_files (py "repo") my_feature_settings)
                          moved_repo))) ->
    no_slash (renamed my_feature_settings src) /\
    (component (renamed my_feature_settings src) = true ->
     path_parent dst = path_parent src /\
     path_name dst = renamed my_feature_settings src).
Proof.
  assert (Hname : no_slash (pascal_name my_feature_settings)).
  { repeat (constructor; [discriminate|]). constructor. }
  split; [exact Hname|].
  apply (rename_java_files_renames_checked memfs_handler moved_repo
           (py "repo") my_feature_settings Hname).
Defined.

(** In that run the files of the new package directories are renamed. *)
Example rename_java_files_on_template :
  map (fun r => (path_name (fst r), path_name (snd r)))
      (renames (trace (exec memfs_handler
                         (rename_java_files (py "repo") my_feature_settings)
                         moved_repo))) <> [].
Proof. vm_compute. discriminate. Qed.

(** ** [main] as a whole *)

Lemma answers_here (p line : str) (tr : list entry) :
  In (p, line) (answers (Entry (EvInput p) (Ok line) :: tr)).
Proof. now left. Qed.

Lemma answers_skip (x : str * str) (e : entry) (tr : list entry) :
  In x (answers tr) -> In x (answers (e :: tr)).
Proof. intros H. apply (in_or_app _ (answers tr)). now right. Qed.

(** One event of a run in an arbitrary environment. *)
Ltac run_step h :=
  rewrite exec_vis;
  match goal with
  | |- context [h ?X ?ev ?s] =>
      let x := fresh "x" in
      let s' := fresh "s" in
      destruct (h X ev s) as [x s']; cbn [fst snd]; try destruct x
  end;
  cbn [bind negb].

(** X14: in any environment, if a run of [main] changes anything in the
    file system (makes, moves or removes a directory, renames or writes a
    file), then [pom.xml] was found and the confirmation prompt was
    answered, with an answer other than [n] up to surrounding blanks and
    case.  So a missing [pom.xml], an end of input or an exception at any
    prompt, and the answer [n] all leave the file system as it is. *)
Theorem main_mutates_only_after_confirmation
    {S : Type} (h : handler S) (s : S) (repo : path) :
  mutations (trace (exec h (main repo) s)) <> [] ->
  In (repo // py "pom.xml") (found (trace (exec h (main repo) s))) /\
  exists answer,
    In (confirm_prompt, answer) (answers (trace (exec h (main repo) s))) /\
    str_lower (str_strip answer) <> py "n".
Proof.
  unfold main. cbn [bind ask call print prompt].
  repeat run_step h.
  all: try (intros Hm; exfalso; apply Hm; reflexivity).
  match goal with
  | |- context [str_eqb (str_lower (str_strip ?a)) (py "n")] =>
      destruct (str_eqb (str_lower (str_strip a)) (py "n")) eqn:E;
      cbn [bind ask call print];
      [run_step h; intros Hm; exfalso; apply Hm; reflexivity|];
      intros _; cbn [push trace]; split; [now left|]; exists a; split
  end.
  - repeat first [apply answers_here | apply answers_skip].
  - intros Habs. apply str_eqb_eq in Habs. congruence.
Qed.

Lemma main_mutates_only_after_confirmation_witness :
  mutations (trace scenario) <> [] /\
  (In (py "repo" // py "pom.xml") (found (trace scenario)) /\
   exists answer,
     In (confirm_prompt, answer) (answers (trace scenario)) /\
     str_lower (str_strip answer) <> py "n").
Proof.
  assert (H : mutations (trace scenario) <> [])
    by (vm_compute; discriminate).
  split; [exact H|].
  apply (main_mutates_only_after_confirmation (console memfs_handler)
           (scenario_stdin, template_repo) (py "repo")).
  exact H.
Defined.

(** X15: if the standard input ends before the five prompts of [main] are
    answered, [main] raises [EOFError] and the file system is left as it
    is, whatever the answers given so far. *)
Theorem main_end_of_input
    {F : Type} (hfs : handler F) (f : F) (repo : path) (stdin : list str) :
  fst (hfs _ (EvExists (repo // py "pom.xml")) f) = true ->
  length stdin < 5 ->
  outcome (exec (console hfs) (main repo) (stdin, f)) = Err EOFError /\
  mutations (trace (exec (console hfs) (main repo) (stdin, f))) = [] /\
  final (exec (console hfs) (main repo) (stdin, f)) =
    ([], snd (hfs _ (EvExists (repo // py "pom.xml")) f)).
Proof.
  intros H Hlen. unfold main.
  cbn [bind exec ask call print prompt console fst snd].
  destruct (hfs _ (EvExists (repo // py "pom.xml")) f) as [found f1].
  cbn [fst] in H. subst found.
  destruct stdin as [|a [|b [|c [|d [|e more]]]]];
    [| | | | | cbn [length] in Hlen; lia].
  all: cbn [bind exec ask call print prompt console fst snd negb
            outcome final trace].
  all: repeat split; reflexivity.
Qed.

Lemma main_end_of_input_witness :
  fst (memfs_handler _ (EvExists (py "repo" // py "pom.xml")) template_repo)
    = true /\
  length [py "my-feature"; py "com.acme"] < 5 /\
  outcome (exec (console memfs_handler) (main (py "repo"))
             ([py "my-feature"; py "com.acme"], template_repo))
    = Err EOFError /\
  mutations (trace (exec (console memfs_handler) (main (py "repo"))
                      ([py "my-feature"; py "com.acme"], template_repo)))
    = [] /\
  final (exec (console memfs_handler) (main (py "repo"))
           ([py "my-feature"; py "com.acme"], template_repo)) =
    ([], snd (memfs_handler _ (EvExists (py "repo" // py "pom.xml"))
                template_repo)).
Proof.
  split; [reflexivity|]. split; [cbn; lia|].
  apply (main_end_of_input memfs_handler template_repo (py "repo")
           [py "my-feature"; py "com.acme"]); [reflexivity | cbn; lia].
Defined.

Lemma scans_only_writes (files : list path) (tr : list entry) :
  scans_only files tr ->
  mutations tr = filter is_write tr /\
  forall p text, In (p, text) (writes tr) -> In p files.
Proof.
  induction 1 as [|[X ev x] tr He _ [IHm IHw]]; [split; [reflexivity | intros ? ? []]|].
  destruct ev; try contradiction; split;
    try (cbn [mutations filter is_mutation is_write]; exact IHm);
    try exact IHw.
  - cbn [mutations filter is_mutation is_write]. f_equal. exact IHm.
  - intros q text' [[= <- _]|Hin]; [exact He | now apply (IHw q text')].
Qed.

(** X16: in any environment, the content-substitution step of [main]
    changes the file system by writing files only, and every file it
    writes is [pom.xml] or a path that one of its globs handed over. *)
Theorem update_contents_writes_listed
    {S : Type} (h : handler S) (s : S) (repo : path) (cfg : settings) :
  mutations (trace (exec h (update_contents repo cfg) s)) =
    filter is_write (trace (exec h (update_contents repo cfg) s)) /\
  forall p text,
    In (p, text) (writes (trace (exec h (update_contents repo cfg) s))) ->
    p = repo // py "pom.xml" \/
    In p (listed (trace (exec h (update_contents repo cfg) s))).
Proof.
  unfold update_contents. cbn [bind ask print].
  repeat (rewrite exec_vis; answer h; cbn [fst snd bind]).
  match goal with
  | |- context [exec h (replace_in_files ?files ?table) ?st] =>
      destruct (scans_only_writes files _
                  (replace_in_files_scan h st files table)) as [Hm Hw]
  end.
  cbn [push trace]. split.
  - cbn [mutations filter is_mutation is_write]. exact Hm.
  - intros p text Hin. apply Hw in Hin.
    repeat (apply in_app_iff in Hin as [Hin|Hin]).
    + right. cbn [listed flat_map]. rewrite !in_app_iff. tauto.
    + left. now destruct Hin as [<-|[]].
    + right. cbn [listed flat_map]. rewrite !in_app_iff. tauto.
    + right. cbn [listed flat_map]. rewrite !in_app_iff. tauto.
    + right. cbn [listed flat_map]. rewrite !in_app_iff. tauto.
    + right. cbn [listed flat_map]. rewrite !in_app_iff. tauto.
Qed.
